(** * golang-maps: generic map helpers, Set, Sync and Observable

    A shallow embedding of [maps.go] and the properties of its
    specification.

    - Go maps are references: the plain helpers ([Clone], [Filter], [Copy])
      and [Set] run over a heap of map cells, so that aliasing and
      independence can be stated.
    - A method with a pointer receiver is a computation over the struct it
      points to; callbacks and observers act on an abstract world [W].
    - A write to a nil map, a slice index out of range, a second [Lock] of a
      held mutex and an [Unlock] of a free one are faults of the error monad.
    - [for k, v := range m] visits the entries in an order the runtime
      chooses: the order is a parameter ([MapRange]) of which only
      "a permutation of the entries" is known. *)

From stdpp Require Import gmap strings list fin_maps.
From Stdlib Require Import ZArith.

Set Default Proof Using "Type".

(** ** Faults and the state-and-error monad *)

Inductive fault : Type :=
  | NilMapWrite        (* panic: assignment to entry in nil map *)
  | IndexOutOfRange    (* panic: index out of range *)
  | Deadlock           (* a lock that no one will ever release *)
  | UnlockOfUnlocked.  (* fatal error: Unlock/RUnlock of unlocked RWMutex *)

Inductive result (A : Type) : Type :=
  | Ok (a : A)
  | Fault (e : fault).
Arguments Ok {A} a.
Arguments Fault {A} e.

Definition M (Σ A : Type) : Type := Σ → result (A * Σ).

Global Instance M_ret {Σ} : MRet (M Σ) := λ A a σ, Ok (a, σ).
Global Instance M_bind {Σ} : MBind (M Σ) := λ A B f c σ,
  match c σ with
  | Ok (a, σ') => f a σ'
  | Fault e => Fault e
  end.

Definition throw {Σ A} (e : fault) : M Σ A := λ _, Fault e.

(** [for _, x := range l { body x }] over a slice. *)
Fixpoint for_each {Σ A} (l : list A) (body : A → M Σ unit) : M Σ unit :=
  match l with
  | [] => mret tt
  | x :: l' => body x ;; for_each l' body
  end.

(** ** Zero values and map iteration order *)

Class Zero (A : Type) := zero : A.
Global Instance Z_zero : Zero Z := 0%Z.
Global Instance nat_zero : Zero nat := 0.
Global Instance string_zero : Zero string := EmptyString.
Global Instance unit_zero : Zero unit := tt.

(** The order in which [range] produces the entries of a map. *)
Class MapRange (K : Type) `{Countable K} := {
  range : ∀ {V}, gmap K V → list (K * V);
  range_perm : ∀ V (m : gmap K V), range m ≡ₚ map_to_list m
}.

(** Two iteration orders, for running the definitions. *)
Definition range_asc (K : Type) `{Countable K} : MapRange K :=
  {| range := λ V m, map_to_list m;
     range_perm := λ V m, reflexivity (map_to_list m) |}.

Definition range_desc (K : Type) `{Countable K} : MapRange K :=
  {| range := λ V m, reverse (map_to_list m);
     range_perm := λ V m, reverse_Permutation (map_to_list m) |}.

(** ** Go maps as references into a heap *)

Inductive mapref : Type :=
  | Nil                  (* the nil map *)
  | Ref (l : positive).  (* a map made by [make] *)

Global Instance mapref_eq_dec : EqDecision mapref.
Proof. solve_decision. Defined.

Section heap.
Context `{Countable K} {V : Type} `{!Zero V} `{!MapRange K}.

Local Abbreviation Heap := (gmap positive (gmap K V)).

(** What a read of [m] sees; a nil map reads as the empty map. (So does a
    reference the heap does not hold; [make] never hands out one, and the
    theorems that need a map to be there say so.) *)
Definition contents (h : Heap) (m : mapref) : gmap K V :=
  match m with
  | Nil => ∅
  | Ref l => default ∅ (h !! l)
  end.

(** [make(M)] *)
Definition make : M Heap mapref := λ h,
  let l := fresh (dom h) in Ok (Ref l, <[l := ∅]> h).

(** [len(m)] *)
Definition len (m : mapref) : M Heap nat := λ h, Ok (size (contents h m), h).

(** [m[k]] *)
Definition index (m : mapref) (k : K) : M Heap V := λ h,
  Ok (default zero (contents h m !! k), h).

(** [_, ok := m[k]] *)
Definition index_ok (m : mapref) (k : K) : M Heap bool := λ h,
  Ok (bool_decide (is_Some (contents h m !! k)), h).

(** [m[k] = v] *)
Definition store (m : mapref) (k : K) (v : V) : M Heap unit := λ h,
  match m with
  | Nil => Fault NilMapWrite
  | Ref l => Ok (tt, <[l := <[k := v]> (contents h m)]> h)
  end.

(** [delete(m, k)]: a no-op on a nil map *)
Definition delete_key (m : mapref) (k : K) : M Heap unit := λ h,
  match m with
  | Nil => Ok (tt, h)
  | Ref l => Ok (tt, <[l := delete k (contents h m)]> h)
  end.

(** The entries [range m] will produce. The loops below write to another
    map, rewrite an entry with the value it has, or delete the entry they
    are visiting, so what a loop visits is what was there when it began. *)
Definition entries (m : mapref) : M Heap (list (K * V)) := λ h,
  Ok (range (contents h m), h).

(** *** Functional helpers *)

(** [make(M, len(m))]: the size is a hint and is left out. *)
Definition Clone (m : mapref) : M Heap mapref :=
  if decide (m = Nil) then mret Nil
  else
    r ← make;
    es ← entries m;
    for_each es (λ '(k, v), store r k v) ;;
    mret r.

Definition Filter (m : mapref) (test : K → V → bool) : M Heap mapref :=
  if decide (m = Nil) then mret Nil
  else
    r ← make;
    es ← entries m;
    for_each es (λ '(k, v), if test k v then store r k v else mret tt) ;;
    mret r.

Definition Copy (dst src : mapref) : M Heap unit :=
  es ← entries src;
  for_each es (λ '(k, v), store dst k v).

End heap.
Arguments contents : simpl never.

(** ** sync.RWMutex, as the one running thread sees it *)

Record RWMutex : Type := { writer : bool; readers : nat }.

Definition rw_free : RWMutex := {| writer := false; readers := 0 |}.

(** With no other thread to release it, a lock that is not available is
    never acquired. *)
Definition rw_Lock : M RWMutex unit := λ m,
  if writer m || negb (readers m =? 0) then Fault Deadlock
  else Ok (tt, {| writer := true; readers := readers m |}).

Definition rw_Unlock : M RWMutex unit := λ m,
  if writer m then Ok (tt, {| writer := false; readers := readers m |})
  else Fault UnlockOfUnlocked.

Definition rw_RLock : M RWMutex unit := λ m,
  if writer m then Fault Deadlock
  else Ok (tt, {| writer := false; readers := S (readers m) |}).

Definition rw_RUnlock : M RWMutex unit := λ m,
  match readers m with
  | 0 => Fault UnlockOfUnlocked
  | S n => Ok (tt, {| writer := writer m; readers := n |})
  end.

(** ** Program state: the heap of maps, the receiver, the outside world *)

Record state (K V W S : Type) `{Countable K} : Type := State {
  heap : gmap positive (gmap K V);
  self : S;
  world : W
}.
Arguments State {K V W S _ _} heap self world.
Arguments heap {K V W S _ _} s.
Arguments self {K V W S _ _} s.
Arguments world {K V W S _ _} s.

Section lifting.
Context `{Countable K} {V W : Type}.

(** Run a map primitive on the heap of the state. *)
Definition on_heap {S A} (c : M (gmap positive (gmap K V)) A) : M (state K V W S) A :=
  λ st, match c (heap st) with
        | Ok (a, h) => Ok (a, State h (self st) (world st))
        | Fault e => Fault e
        end.

(** Call a function of the caller; all it can touch is the world. *)
Definition call {S} (g : W → W) : M (state K V W S) unit :=
  λ st, Ok (tt, State (heap st) (self st) (g (world st))).

(** Read a field of the receiver. *)
Definition field {S A} (f : S → A) : M (state K V W S) A :=
  λ st, Ok (f (self st), st).

(** Run a method of a field [S] of the receiver [S']. *)
Definition on_field {S S' A} (get : S' → S) (set : S → S' → S')
    (c : M (state K V W S) A) : M (state K V W S') A :=
  λ st, match c (State (heap st) (get (self st)) (world st)) with
        | Ok (a, st') => Ok (a, State (heap st') (set (self st') (self st)) (world st'))
        | Fault e => Fault e
        end.
End lifting.

(** [make([]T, n)] and [s[i] = x] on a slice *)
Definition make_slice {A} `{!Zero A} (n : nat) : list A := replicate n zero.

Definition slice_set {Σ A} (s : list A) (i : nat) (x : A) : M Σ (list A) :=
  if decide (i < length s) then mret (<[i := x]> s) else throw IndexOutOfRange.

(** A loop over a slice that carries local variables. *)
Fixpoint fold_each {Σ A B} (l : list A) (acc : B) (body : B → A → M Σ B) : M Σ B :=
  match l with
  | [] => mret acc
  | x :: l' => acc' ← body acc x; fold_each l' acc' body
  end.

(** A pointer receiver: nil, or the struct held in the state. *)
Inductive ptr : Type := NilPtr | Self.

(** *** Functional helpers, continued *)

Section helpers.
Context `{Countable K} {V W R : Type} `{!Zero K} `{!Zero V} `{!MapRange K}.

Local Abbreviation Heap := (gmap positive (gmap K V)).

(** [make([]K, 0, len(m))]: the capacity is a hint and is left out;
    [r = append(r, k)] puts [k] at the end. *)
Definition Keys (m : mapref) : M Heap (list K) :=
  es ← entries m;
  fold_each es [] (λ r '(k, _), mret (r ++ [k])).

Definition Values (m : mapref) : M Heap (list V) :=
  es ← entries m;
  fold_each es [] (λ r '(_, v), mret (r ++ [v])).

Definition Each (m : mapref) (f : K → V → W → W) : M (state K V W R) unit :=
  if decide (m = Nil) then mret tt
  else
    es ← on_heap (entries m);
    for_each es (λ '(k, v), call (f k v)).

(** The loop of [Find]: the results [_k, _v] keep what they hold until an
    entry passes; then they take it and the loop breaks. *)
Fixpoint find_loop (es : list (K * V)) (test : K → V → bool) (r : K * V) : K * V :=
  match es with
  | [] => r
  | (k, v) :: es' => if test k v then (k, v) else find_loop es' test r
  end.

Definition Find (m : mapref) (test : K → V → bool) : M Heap (K * V) :=
  if decide (m = Nil) then mret (zero, zero)
  else
    es ← entries m;
    mret (find_loop es test (zero, zero)).

Definition Reduce {A} (m : mapref) (a : A) (f : A → K → V → A) : M Heap A :=
  if decide (m = Nil) then mret a
  else
    es ← entries m;
    fold_each es a (λ a '(k, v), mret (f a k v)).

Definition DeleteFunc (m : mapref) (del : K → V → bool) : M Heap unit :=
  es ← entries m;
  for_each es (λ '(k, v), if del k v then delete_key m k else mret tt).

End helpers.

(** *** Set: [type Set[T comparable] map[T]struct{}] *)

Module GoSet.
Section set.
Context `{Countable T}.

Local Abbreviation Heap := (gmap positive (gmap T unit)).

Definition NewSet : M Heap mapref := make.

Definition Has (s : mapref) (t : T) : M Heap bool := index_ok s t.

Definition Add (s : mapref) (t : T) : M Heap unit := store s t tt.

Definition Remove (s : mapref) (t : T) : M Heap unit := delete_key s t.

Context `{!Zero T} `{!MapRange T} {W R : Type}.

Definition Slice (s : mapref) : M Heap (list T) :=
  n ← len s;
  es ← entries s;
  '(_, slice) ← fold_each es (0, make_slice n)
                  (λ '(i, slice) '(v, _), slice' ← slice_set slice i v; mret (S i, slice'));
  mret slice.

Definition Each (s : mapref) (f : T → W → W) : M (state T unit W R) unit :=
  es ← on_heap (entries s);
  for_each es (λ '(v, _), call (f v)).

Definition Delete (s : mapref) (items : list T) : M Heap unit :=
  for_each items (λ t, delete_key s t).

End set.
End GoSet.

(** ** Sync: a map behind a sync.RWMutex *)

Record SyncT : Type := { rw : RWMutex; data : mapref }.

Module Sync.
Section sync.
Context `{Countable K} {V W : Type} `{!Zero K} `{!Zero V} `{!MapRange K}.

Local Abbreviation St := (state K V W SyncT).

Definition on_rw {A} (c : M RWMutex A) : M St A :=
  λ st, match c (rw (self st)) with
        | Ok (a, m) => Ok (a, State (heap st) {| rw := m; data := data (self st) |} (world st))
        | Fault e => Fault e
        end.

Definition NewSync : M (gmap positive (gmap K V)) SyncT :=
  r ← make;
  mret {| rw := rw_free; data := r |}.

Definition Keys : M St (list K) :=
  on_rw rw_RLock ;;
  d ← field data;
  n ← on_heap (len d);
  es ← on_heap (entries d);
  '(_, keys) ← fold_each es (0, make_slice n)
                 (λ '(i, keys) '(k, _), keys' ← slice_set keys i k; mret (S i, keys'));
  on_rw rw_RUnlock ;;
  mret keys.

Definition Values : M St (list V) :=
  on_rw rw_RLock ;;
  d ← field data;
  n ← on_heap (len d);
  es ← on_heap (entries d);
  '(_, values) ← fold_each es (0, make_slice n)
                   (λ '(i, values) '(_, v), values' ← slice_set values i v; mret (S i, values'));
  on_rw rw_RUnlock ;;
  mret values.

(** [Size] and [Get] take no lock. Go's [int] holds every map length. *)
Definition Size : M St Z :=
  d ← field data;
  n ← on_heap (len d);
  mret (Z.of_nat n).

Definition Get (key : K) : M St V :=
  d ← field data;
  on_heap (index d key).

Definition set (key : K) (val : V) : M St unit :=
  d ← field data;
  on_heap (store d key val).

Definition Set_ (key : K) (val : V) : M St unit :=
  on_rw rw_Lock ;;
  set key val ;;
  on_rw rw_Unlock.

Definition Each (f : K → V → W → W) : M St unit :=
  on_rw rw_RLock ;;
  d ← field data;
  es ← on_heap (entries d);
  for_each es (λ '(k, v), call (f k v)) ;;
  on_rw rw_RUnlock.

Definition Filter (f : K → V → bool) : M St mapref :=
  filtered ← on_heap make;
  on_rw rw_RLock ;;
  d ← field data;
  es ← on_heap (entries d);
  for_each es (λ '(k, v), if f k v then on_heap (store filtered k v) else mret tt) ;;
  on_rw rw_RUnlock ;;
  mret filtered.

(** The loop of [Find]: the first entry that passes, or the zero values. *)
Fixpoint find_first (es : list (K * V)) (f : K → V → bool) : K * V :=
  match es with
  | [] => (zero, zero)
  | (k, v) :: es' => if f k v then (k, v) else find_first es' f
  end.

Definition Find (f : K → V → bool) : M St (K * V) :=
  on_rw rw_RLock ;;
  d ← field data;
  es ← on_heap (entries d);
  let r := find_first es f in
  on_rw rw_RUnlock ;;   (* deferred *)
  mret r.

Definition ReduceSync {A} (s : ptr) (a : A) (f : A → K → V → A) : M St A :=
  match s with
  | NilPtr => mret a
  | Self =>
      on_rw rw_RLock ;;
      d ← field data;
      es ← on_heap (entries d);
      a' ← fold_each es a (λ a '(k, v), mret (f a k v));
      on_rw rw_RUnlock ;;
      mret a'
  end.

Definition Delete (keys : list K) : M St unit :=
  on_rw rw_Lock ;;
  for_each keys (λ key, d ← field data; on_heap (delete_key d key)) ;;
  on_rw rw_Unlock.

(** The new Sync is handed back as the struct the returned pointer points
    to; a nil receiver gives nil. *)
Definition Clone (s : ptr) : M St (option SyncT) :=
  match s with
  | NilPtr => mret None
  | Self =>
      ss ← on_heap NewSync;
      on_rw rw_RLock ;;
      d ← field data;
      es ← on_heap (entries d);
      for_each es (λ '(k, v), on_heap (store (data ss) k v)) ;;
      on_rw rw_RUnlock ;;
      mret (Some ss)
  end.

Definition DeleteFunc (del : K → V → bool) : M St unit :=
  on_rw rw_Lock ;;
  d ← field data;
  es ← on_heap (entries d);
  for_each es (λ '(k, v),
    if del k v then d' ← field data; on_heap (delete_key d' k) else mret tt) ;;
  on_rw rw_Unlock.

(** The callback of [Lock] is given [s.set]; it and the callback of [RLock]
    are code of the caller that runs on the whole state. *)
Definition Lock (f : (K → V → M St unit) → M St unit) : M St unit :=
  on_rw rw_Lock ;;
  f set ;;
  on_rw rw_Unlock.

Definition RLock (f : M St unit) : M St unit :=
  on_rw rw_RLock ;;
  f ;;
  on_rw rw_RUnlock.

End sync.
End Sync.

(** ** Observable: a Sync that tells its observers of every write *)

(** The interface [Observer]: a value with a method [Observe(id, new, old)].
    What the method does, it does to the world; it runs while the lock of
    the Observable is held and does not call back into it. *)
Record Observer (K V W : Type) : Type := { Observe : K → V → V → W → W }.
Arguments Observe {K V W} o id new old w.

Definition ObserverFunc {K V W} (f : K → V → V → W → W) : Observer K V W :=
  {| Observe := f |}.

Record ObservableT (K V W : Type) : Type := {
  sync : SyncT;
  obs : list (Observer K V W)
}.
Arguments sync {K V W} o.
Arguments obs {K V W} o.

Module Observable.
Section observable.
Context `{Countable K} {V W : Type} `{!Zero K} `{!Zero V} `{!MapRange K}.

Local Abbreviation St := (state K V W (ObservableT K V W)).

(** [o.sync.m(...)] *)
Definition on_sync {A} (c : M (state K V W SyncT) A) : M St A :=
  on_field sync (λ s o, {| sync := s; obs := obs o |}) c.

Definition NewObservable : M (gmap positive (gmap K V)) (ObservableT K V W) :=
  r ← make;
  mret {| sync := {| rw := rw_free; data := r |}; obs := [] |}.

Definition callback (key : K) (new old : V) : M St unit :=
  os ← field obs;
  for_each os (λ o, call (Observe o key new old)).

Definition set (key : K) (val : V) : M St unit :=
  d ← field (λ o, data (sync o));
  old ← on_heap (index d key);
  callback key val old ;;
  on_heap (store d key val).

Definition Keys : M St (list K) := on_sync Sync.Keys.
Definition Values : M St (list V) := on_sync Sync.Values.
Definition Size : M St Z := on_sync Sync.Size.
Definition Get (key : K) : M St V := on_sync (Sync.Get key).

Definition Set_ (key : K) (val : V) : M St unit :=
  on_sync (Sync.on_rw rw_Lock) ;;
  set key val ;;
  on_sync (Sync.on_rw rw_Unlock).

Definition Observe (f : Observer K V W) : M St unit :=
  λ st, Ok (tt, State (heap st)
                      {| sync := sync (self st); obs := obs (self st) ++ [f] |}
                      (world st)).

Definition Each (f : K → V → W → W) : M St unit := on_sync (Sync.Each f).
Definition Filter (f : K → V → bool) : M St mapref := on_sync (Sync.Filter f).
Definition Find (f : K → V → bool) : M St (K * V) := on_sync (Sync.Find f).

Definition ReduceObservable {A} (a : A) (f : A → K → V → A) : M St A :=
  on_sync (Sync.ReduceSync Self a f).

Definition Delete (keys : list K) : M St unit :=
  on_sync (Sync.on_rw rw_Lock) ;;
  for_each keys (λ key,
    d ← field (λ o, data (sync o));
    old ← on_heap (index d key);
    callback key zero old ;;
    on_heap (delete_key d key)) ;;
  on_sync (Sync.on_rw rw_Unlock).

Definition DeleteFunc (del : K → V → bool) : M St unit :=
  on_sync (Sync.on_rw rw_Lock) ;;
  d ← field (λ o, data (sync o));
  es ← on_heap (entries d);
  for_each es (λ '(k, v),
    if del k v then
      callback k zero v ;;
      d' ← field (λ o, data (sync o));
      on_heap (delete_key d' k)
    else mret tt) ;;
  on_sync (Sync.on_rw rw_Unlock).

Definition Lock (f : (K → V → M St unit) → M St unit) : M St unit :=
  on_sync (Sync.on_rw rw_Lock) ;;
  f set ;;
  on_sync (Sync.on_rw rw_Unlock).

Definition RLock (f : M (state K V W SyncT) unit) : M St unit := on_sync (Sync.RLock f).

End observable.
End Observable.

(** ** Words for the statements *)

(** What the guarded loop bodies do to the contents of the map they write. *)
Section entry_updates.
Context `{Countable K} {V : Type}.
Implicit Types (m : gmap K V).

(** [if test(k, v) { r[k] = v }] *)
Definition put_if (test : K → V → bool) m (e : K * V) : gmap K V :=
  if test e.1 e.2 then <[e.1 := e.2]> m else m.

(** [if del(k, v) { delete(m, k) }] *)
Definition drop_if (del : K → V → bool) m (e : K * V) : gmap K V :=
  if del e.1 e.2 then delete e.1 m else m.
End entry_updates.

(** The statements by which a Go program changes a map. *)
Inductive mutation (K V : Type) : Type :=
  | Put (k : K) (v : V)   (* m[k] = v *)
  | Del (k : K).          (* delete(m, k) *)
Arguments Put {K V} k v.
Arguments Del {K V} k.

Definition mutate `{Countable K} {V} (m : mapref) (μ : mutation K V) :
    M (gmap positive (gmap K V)) unit :=
  match μ with
  | Put k v => store m k v
  | Del k => delete_key m k
  end.

Definition mutated `{Countable K} {V} (m : gmap K V) (μ : mutation K V) : gmap K V :=
  match μ with
  | Put k v => <[k := v]> m
  | Del k => delete k m
  end.

(** A Sync as [NewSync] makes it and as every method leaves it: the lock
    is free and the data map is allocated. *)
Definition sync_at (l : positive) : SyncT := {| rw := rw_free; data := Ref l |}.

(** The specification's "invoke every observer with (key, new, old), in
    registration order", as the world it leaves: each observer of [os]
    invoked once, the first registered first. *)
Definition notified {K V W} (os : list (Observer K V W)) (key : K) (new old : V)
    (w : W) : W :=
  foldl (λ w o, Observe o key new old w) w os.

(** The specification's "for each key in the given order: invoke every
    observer with (key, zeroValue, currentValue), then remove the entry", as
    the map and the world it leaves. *)
Definition delete_notified `{Countable K} {V W} `{!Zero V} (os : list (Observer K V W))
    (keys : list K) (mw : gmap K V * W) : gmap K V * W :=
  foldl (λ mw key, (delete key mw.1,
                    notified os key zero (default zero (mw.1 !! key)) mw.2)) mw keys.

(** A Sync that no constructor made, [var s Sync[K, V]]: the lock is free
    and the data map is nil. *)
Definition sync_zero : SyncT := {| rw := rw_free; data := Nil |}.

(** A Sync inside [Lock] and inside [RLock]. *)
Definition sync_locked (l : positive) : SyncT :=
  {| rw := {| writer := true; readers := 0 |}; data := Ref l |}.
Definition sync_rlocked (l : positive) : SyncT :=
  {| rw := {| writer := false; readers := 1 |}; data := Ref l |}.

(** An Observable as [NewObservable] and [Observe] make it and as every
    method leaves it. *)
Definition obs_at {K V W} (l : positive) (os : list (Observer K V W)) : ObservableT K V W :=
  {| sync := sync_at l; obs := os |}.

(** The same, inside [Set], [Delete], [DeleteFunc] or [Lock]. *)
Definition obs_locked {K V W} (l : positive) (os : list (Observer K V W)) :
    ObservableT K V W :=
  {| sync := {| rw := {| writer := true; readers := 0 |}; data := Ref l |}; obs := os |}.

(** The states in which the theorems take an Observable: made by
    [NewObservable], then used through its methods. *)
Definition ready `{Countable K} {V W} (st : state K V W (ObservableT K V W)) : Prop :=
  ∃ l os m, self st = obs_at l os ∧ heap st !! l = Some m.

(** Observer number [i], made to write each of its invocations into a log
    kept beside the world. *)
Definition logging {K V W} (i : nat) (o : Observer K V W) :
    Observer K V (W * list (nat * K * V * V)) :=
  ObserverFunc (λ k new old wl, (Observe o k new old wl.1, wl.2 ++ [(i, k, new, old)])).

(** The map and the world after the writes have been made in the order
    given, each announced as [(key, val, current value)] and then stored. *)
Definition set_notified `{Countable K} {V W} `{!Zero V} (os : list (Observer K V W))
    (kvs : list (K * V)) (mw : gmap K V * W) : gmap K V * W :=
  foldl (λ mw e, (<[e.1 := e.2]> mw.1,
                  notified os e.1 e.2 (default zero (mw.1 !! e.1)) mw.2)) mw kvs.

(** The calls a program makes on an Observable. *)
Inductive op (K V W : Type) : Type :=
  | OSet (key : K) (val : V)
  | ODelete (keys : list K)
  | ODeleteFunc (del : K → V → bool)
  | OObserve (f : Observer K V W)
  | OGet (key : K)
  | OSize
  | OKeys
  | OValues
  | OEach (f : K → V → W → W)
  | OFilter (f : K → V → bool)
  | OFind (f : K → V → bool).
Arguments OSet {K V W} key val.
Arguments ODelete {K V W} keys.
Arguments ODeleteFunc {K V W} del.
Arguments OObserve {K V W} f.
Arguments OGet {K V W} key.
Arguments OSize {K V W}.
Arguments OKeys {K V W}.
Arguments OValues {K V W}.
Arguments OEach {K V W} f.
Arguments OFilter {K V W} f.
Arguments OFind {K V W} f.

Definition run_op `{Countable K} {V W} `{!Zero K} `{!Zero V} `{!MapRange K}
    (o : op K V W) : M (state K V W (ObservableT K V W)) unit :=
  match o with
  | OSet key val => Observable.Set_ key val
  | ODelete keys => Observable.Delete keys
  | ODeleteFunc del => Observable.DeleteFunc del
  | OObserve f => Observable.Observe f
  | OGet key => Observable.Get key ;; mret tt
  | OSize => Observable.Size ;; mret tt
  | OKeys => Observable.Keys ;; mret tt
  | OValues => Observable.Values ;; mret tt
  | OEach f => Observable.Each f
  | OFilter f => Observable.Filter f ;; mret tt
  | OFind f => Observable.Find f ;; mret tt
  end.

(** ** Concrete inputs *)

(** An observer that writes down what it is told. *)
Definition recorder : Observer string Z (list (string * Z * Z)) :=
  ObserverFunc (λ k new old w, w ++ [(k, new, old)]).

Definition m_x : gmap string Z := {["x" := 10%Z]}.
Definition m_xy : gmap string Z := {["x" := 10%Z; "y" := 3%Z]}.
Definition h_x : gmap positive (gmap string Z) := {[1%positive := m_x]}.
Definition h_xy : gmap positive (gmap string Z) := {[1%positive := m_xy]}.
Definition above_5 (k : string) (v : Z) : bool := (5 <? v)%Z.
Definition add_value (a : Z) (k : string) (v : Z) : Z := (a + v)%Z.
Definition h_3 : gmap positive (gmap string Z) :=
  {[1%positive := m_x; 2%positive := {["x" := 1%Z; "z" := 2%Z]};
    3%positive := {["z" := 9%Z]}]}.
Definition h_set : gmap positive (gmap string unit) :=
  {[1%positive := {["x" := tt; "y" := tt]}]}.

(** * Properties *)

(** ** The monad and its loops *)

Lemma bind_ok {Σ A B} (c : M Σ A) (f : A → M Σ B) σ a σ' :
  c σ = Ok (a, σ') → (c ≫= f) σ = f a σ'.
Proof. intros Hc. unfold mbind, M_bind. by rewrite Hc. Qed.

(** A loop whose body always returns is the left fold of its steps. *)
Lemma for_each_steps {Σ A} (step : A → Σ → Σ) (body : A → M Σ unit) l :
  (∀ x σ, body x σ = Ok (tt, step x σ)) →
  ∀ σ, for_each l body σ = Ok (tt, foldl (λ σ x, step x σ) σ l).
Proof.
  intros Hbody. induction l as [|x l IH]; intros σ; simpl; [done|].
  rewrite (bind_ok _ _ _ _ _ (Hbody x σ)). apply IH.
Qed.

Lemma fold_each_pure {Σ A B} (g : B → A → B) l :
  ∀ (b : B) (σ : Σ), fold_each l b (λ b x, mret (g b x)) σ = Ok (foldl g b l, σ).
Proof. induction l as [|x l IH]; intros b σ; simpl; [done|]. apply IH. Qed.

(** ** Iteration order *)

Section range_facts.
Context `{Countable K} `{!MapRange K} {V : Type}.
Implicit Types (m : gmap K V) (k : K) (v : V).

Lemma range_NoDup m : NoDup (range m).*1.
Proof. rewrite (range_perm V m). apply NoDup_fst_map_to_list. Qed.

Lemma range_to_map m : list_to_map (range m) = m.
Proof.
  rewrite <-(list_to_map_to_list m) at 2.
  apply list_to_map_proper; [apply range_NoDup | apply range_perm].
Qed.

Lemma elem_of_range m k v : (k, v) ∈ range m ↔ m !! k = Some v.
Proof. rewrite (range_perm V m). apply elem_of_map_to_list. Qed.

Lemma length_range m : length (range m) = size m.
Proof. rewrite (range_perm V m). apply length_map_to_list. Qed.

Lemma range_empty : range (∅ : gmap K V) = [].
Proof. apply length_zero_iff_nil. by rewrite length_range, map_size_empty. Qed.
End range_facts.

(** ** What the loops over entries compute *)

Section entry_loops.
Context `{Countable K} {V : Type}.
Implicit Types (m : gmap K V) (es : list (K * V)).

Lemma foldl_put_if_lookup test es : NoDup es.*1 → ∀ m0 k,
  foldl (put_if test) m0 es !! k =
    match list_to_map (M := gmap K V) es !! k with
    | Some v => if test k v then Some v else m0 !! k
    | None => m0 !! k
    end.
Proof.
  induction es as [|[k' v'] es IH]; intros Hnd m0 k; simpl; [done|].
  apply NoDup_cons in Hnd as [Hk' Hnd]. rewrite (IH Hnd). clear IH.
  unfold put_if at 1 2; simpl. destruct (decide (k = k')) as [->|Hne].
  - rewrite lookup_insert_eq, (not_elem_of_list_to_map_1 es k' Hk').
    destruct (test k' v'); [apply lookup_insert_eq | done].
  - rewrite (lookup_insert_ne (list_to_map es)) by done.
    destruct (test k' v'); [by rewrite lookup_insert_ne | done].
Qed.

Lemma foldl_drop_if_lookup del es : NoDup es.*1 → ∀ m0 k,
  foldl (drop_if del) m0 es !! k =
    match list_to_map (M := gmap K V) es !! k with
    | Some v => if del k v then None else m0 !! k
    | None => m0 !! k
    end.
Proof.
  induction es as [|[k' v'] es IH]; intros Hnd m0 k; simpl; [done|].
  apply NoDup_cons in Hnd as [Hk' Hnd]. rewrite (IH Hnd). clear IH.
  unfold drop_if at 1 2; simpl. destruct (decide (k = k')) as [->|Hne].
  - rewrite lookup_insert_eq, (not_elem_of_list_to_map_1 es k' Hk').
    destruct (del k' v'); [apply lookup_delete_eq | done].
  - rewrite (lookup_insert_ne (list_to_map es)) by done.
    destruct (del k' v'); [by rewrite lookup_delete_ne | done].
Qed.

Context `{!MapRange K}.

(** Over the entries of [m], in whatever order, the guarded stores build
    the filter of [m] on top of what was there. *)
Lemma foldl_put_if_range test m m0 k :
  foldl (put_if test) m0 (range m) !! k =
    match m !! k with
    | Some v => if test k v then Some v else m0 !! k
    | None => m0 !! k
    end.
Proof. by rewrite foldl_put_if_lookup, range_to_map by apply range_NoDup. Qed.

Lemma foldl_put_range m m0 :
  foldl (put_if (λ _ _, true)) m0 (range m) = m ∪ m0.
Proof.
  apply map_eq; intros k. rewrite foldl_put_if_range, lookup_union.
  destruct (m !! k), (m0 !! k); done.
Qed.

Lemma foldl_put_if_filter test m :
  foldl (put_if test) ∅ (range m) = filter (λ e, test e.1 e.2 = true) m.
Proof.
  apply map_eq; intros k. rewrite foldl_put_if_range, lookup_empty.
  destruct (m !! k) as [v|] eqn:Hk.
  - destruct (test k v) eqn:Ht; symmetry.
    + by apply map_lookup_filter_Some.
    + apply map_lookup_filter_None. right. intros v' Hv'. simpl.
      rewrite Hk in Hv'. injection Hv' as <-. by rewrite Ht.
  - symmetry. apply map_lookup_filter_None. by left.
Qed.

Lemma foldl_drop_if_filter del m :
  foldl (drop_if del) m (range m) = filter (λ e, del e.1 e.2 = false) m.
Proof.
  apply map_eq; intros k.
  rewrite foldl_drop_if_lookup, range_to_map by apply range_NoDup.
  destruct (m !! k) as [v|] eqn:Hk.
  - destruct (del k v) eqn:Ht; symmetry.
    + apply map_lookup_filter_None. right. intros v' Hv'. simpl.
      rewrite Hk in Hv'. injection Hv' as <-. by rewrite Ht.
    + by apply map_lookup_filter_Some.
  - symmetry. apply map_lookup_filter_None. by left.
Qed.
End entry_loops.

Lemma for_each_ext {Σ A} (f g : A → M Σ unit) l :
  (∀ x σ, f x σ = g x σ) → ∀ σ, for_each l f σ = for_each l g σ.
Proof.
  intros Hfg. induction l as [|x l IH]; intros σ; simpl; [done|].
  unfold mbind, M_bind. rewrite Hfg. destruct (g x σ) as [[[] σ']|e]; [apply IH | done].
Qed.

(** ** Maps on the heap *)

Section heap_facts.
Context `{Countable K} {V : Type} `{!Zero V} `{!MapRange K}.
Implicit Types (h : gmap positive (gmap K V)) (m : gmap K V) (l r : positive).

Lemma contents_insert_eq h r m : contents (<[r := m]> h) (Ref r) = m.
Proof. unfold contents. by rewrite lookup_insert_eq. Qed.

Lemma contents_insert_ne h r l m :
  l ≠ r → contents (<[r := m]> h) (Ref l) = contents h (Ref l).
Proof. intros. unfold contents. by rewrite lookup_insert_ne. Qed.

Lemma contents_live h l m : h !! l = Some m → contents h (Ref l) = m.
Proof. intros Hl. unfold contents. by rewrite Hl. Qed.

(** The loop [for k, v := range es { if test(k, v) { r[k] = v } }]. *)
Lemma guarded_store_loop (test : K → V → bool) r es : ∀ h,
  ∃ h', for_each es (λ '(k, v), if test k v then store (Ref r) k v else mret tt) h
          = Ok (tt, h')
      ∧ contents h' (Ref r) = foldl (put_if test) (contents h (Ref r)) es
      ∧ ∀ l, l ≠ r → h' !! l = h !! l.
Proof.
  induction es as [|[k v] es IH]; intros h; simpl.
  { by exists h. }
  unfold put_if at 2; simpl. destruct (test k v).
  - destruct (IH (<[r := <[k := v]> (contents h (Ref r))]> h)) as (h' & Hrun & Hc & Hfr).
    exists h'. split; [|split].
    + erewrite bind_ok; [exact Hrun | done].
    + by rewrite Hc, contents_insert_eq.
    + intros l Hl. by rewrite Hfr, lookup_insert_ne.
  - destruct (IH h) as (h' & Hrun & Hc & Hfr). by exists h'.
Qed.

Lemma store_loop r es : ∀ h,
  ∃ h', for_each es (λ '(k, v), store (Ref r) k v) h = Ok (tt, h')
      ∧ contents h' (Ref r) = foldl (put_if (λ _ _, true)) (contents h (Ref r)) es
      ∧ ∀ l, l ≠ r → h' !! l = h !! l.
Proof.
  intros h. destruct (guarded_store_loop (λ _ _, true) r es h) as (h' & Hrun & Hc).
  exists h'. split; [|done]. rewrite <-Hrun. apply for_each_ext. by intros [k v] σ.
Qed.

Lemma make_fresh h : h !! fresh (dom h) = None.
Proof. apply not_elem_of_dom, is_fresh. Qed.

(** A run of mutations of one map leaves every other map alone. *)
Lemma mutations_frame r (μs : list (mutation K V)) : ∀ h,
  ∃ h', for_each μs (mutate (Ref r)) h = Ok (tt, h')
      ∧ contents h' (Ref r) = foldl mutated (contents h (Ref r)) μs
      ∧ ∀ l, l ≠ r → h' !! l = h !! l.
Proof.
  induction μs as [|μ μs IH]; intros h; simpl.
  { by exists h. }
  destruct (IH (<[r := mutated (contents h (Ref r)) μ]> h)) as (h' & Hrun & Hc & Hfr).
  exists h'. split; [|split].
  - erewrite bind_ok; [exact Hrun|]. by destruct μ.
  - by rewrite Hc, contents_insert_eq.
  - intros l Hl. by rewrite Hfr, lookup_insert_ne.
Qed.
End heap_facts.

Section helper_claims.
Context `{Countable K} {V : Type} `{!MapRange K}.
Implicit Types (h : gmap positive (gmap K V)) (m : gmap K V) (l r : positive).

Lemma Clone_run h l m :
  h !! l = Some m →
  ∃ h', Clone (Ref l) h = Ok (Ref (fresh (dom h)), h')
      ∧ contents h' (Ref (fresh (dom h))) = m
      ∧ ∀ l', l' ≠ fresh (dom h) → h' !! l' = h !! l'.
Proof.
  intros Hl. pose proof (make_fresh h) as Hr. set (r := fresh (dom h)) in *.
  assert (l ≠ r) as Hlr by (intros ->; congruence).
  destruct (store_loop r (range m) (<[r := ∅]> h)) as (h' & Hrun & Hc & Hfr).
  exists h'. split; [|split].
  - unfold Clone. rewrite decide_False by done.
    unfold mbind, M_bind, make, entries. fold r.
    rewrite contents_insert_ne, (contents_live h l m) by done. by rewrite Hrun.
  - by rewrite Hc, contents_insert_eq, foldl_put_range, (right_id_L ∅ (∪)).
  - intros l' Hl'. by rewrite Hfr, lookup_insert_ne.
Qed.

Lemma Filter_run h l m (test : K → V → bool) :
  h !! l = Some m →
  ∃ h', Filter (Ref l) test h = Ok (Ref (fresh (dom h)), h')
      ∧ contents h' (Ref (fresh (dom h))) = filter (λ e, test e.1 e.2 = true) m
      ∧ ∀ l', l' ≠ fresh (dom h) → h' !! l' = h !! l'.
Proof.
  intros Hl. pose proof (make_fresh h) as Hr. set (r := fresh (dom h)) in *.
  assert (l ≠ r) as Hlr by (intros ->; congruence).
  destruct (guarded_store_loop test r (range m) (<[r := ∅]> h)) as (h' & Hrun & Hc & Hfr).
  exists h'. split; [|split].
  - unfold Filter. rewrite decide_False by done.
    unfold mbind, M_bind, make, entries. fold r.
    rewrite contents_insert_ne, (contents_live h l m) by done. by rewrite Hrun.
  - by rewrite Hc, contents_insert_eq, foldl_put_if_filter.
  - intros l' Hl'. by rewrite Hfr, lookup_insert_ne.
Qed.

(** C5. [Filter(m, test)] returns a map that was not there before and
    holds exactly the entries of [m] that pass [test], so no more than [m]
    has; [m] is as it was; [Filter(nil, test)] is nil. *)
Theorem Filter_exact h l m (test : K → V → bool) :
  h !! l = Some m →
  ∃ r h', Filter (Ref l) test h = Ok (Ref r, h')
    ∧ h !! r = None
    ∧ (∀ k v, contents h' (Ref r) !! k = Some v ↔ m !! k = Some v ∧ test k v = true)
    ∧ size (contents h' (Ref r)) ≤ size m
    ∧ contents h' (Ref l) = m
    ∧ Filter Nil test h = Ok (Nil, h).
Proof.
  intros Hl. destruct (Filter_run h l m test Hl) as (h' & Hrun & Hc & Hfr).
  exists (fresh (dom h)), h'. rewrite Hc.
  split; [done|]. split; [apply make_fresh|]. split; [|split; [|split]].
  - intros k v. apply (map_lookup_filter_Some (λ e, test e.1 e.2 = true)).
  - apply map_subseteq_size, map_filter_subseteq.
  - apply contents_live. rewrite Hfr; [done|]. intros ->. by rewrite make_fresh in Hl.
  - done.
Qed.

(** C6. [Clone(m)] of a non-nil map returns a map that was not there
    before and holds the pairs of [m]; whatever is then stored into or
    deleted from either of the two, the other keeps the pairs of [m];
    [Clone(nil)] is nil. *)
Theorem Clone_independent h l m :
  h !! l = Some m →
  ∃ r h', Clone (Ref l) h = Ok (Ref r, h')
    ∧ h !! r = None
    ∧ contents h' (Ref r) = m
    ∧ contents h' (Ref l) = m
    ∧ (∀ μs, ∃ h'', for_each μs (mutate (Ref r)) h' = Ok (tt, h'')
         ∧ contents h'' (Ref r) = foldl mutated m μs
         ∧ contents h'' (Ref l) = m)
    ∧ (∀ μs, ∃ h'', for_each μs (mutate (Ref l)) h' = Ok (tt, h'')
         ∧ contents h'' (Ref l) = foldl mutated m μs
         ∧ contents h'' (Ref r) = m)
    ∧ Clone Nil h = Ok (Nil, h).
Proof.
  intros Hl. destruct (Clone_run h l m Hl) as (h' & Hrun & Hc & Hfr).
  pose proof (make_fresh h) as Hr. set (r := fresh (dom h)) in *.
  assert (l ≠ r) as Hlr by (intros ->; congruence).
  assert (contents h' (Ref l) = m) as Hcl.
  { apply contents_live. by rewrite Hfr. }
  exists r, h'. repeat split; try done.
  - intros μs. destruct (mutations_frame r μs h') as (h'' & Hmut & Hc'' & Hfr'').
    exists h''. rewrite Hc'', Hc. repeat split; try done.
    apply contents_live. by rewrite Hfr'', Hfr.
  - intros μs. destruct (mutations_frame l μs h') as (h'' & Hmut & Hc'' & Hfr'').
    exists h''. rewrite Hc'', Hcl. repeat split; try done.
    unfold contents. rewrite Hfr'' by done. exact Hc.
Qed.

(** C8. Whenever [Copy(dst, src)] returns, [dst] maps every key of [src]
    to the value [src] has for it and keeps its other entries, and [src]
    and every other map are as they were. It returns for every [dst] made
    by [make]; the one case in which it does not is a nil [dst] with a
    [src] that has entries. *)
Theorem Copy_spec h (dst src : mapref) :
  match Copy dst src h with
  | Ok (_, h') =>
      (∀ k v, contents h src !! k = Some v → contents h' dst !! k = Some v)
      ∧ (∀ k, contents h src !! k = None → contents h' dst !! k = contents h dst !! k)
      ∧ contents h' src = contents h src
      ∧ (∀ l, Ref l ≠ dst → h' !! l = h !! l)
  | Fault e => dst = Nil ∧ contents h src ≠ ∅
  end.
Proof.
  unfold Copy, mbind, M_bind, entries. set (ms := contents h src).
  destruct dst as [|d].
  - destruct (range ms) as [|[k v] es] eqn:Hes; simpl.
    + assert (ms = ∅) as Hms.
      { apply map_size_empty_inv. by rewrite <-length_range, Hes. }
      repeat split; try done. intros k v. by rewrite Hms, lookup_empty.
    + split; [done|]. intros Hms. by rewrite Hms, range_empty in Hes.
  - destruct (store_loop d (range ms) h) as (h' & Hrun & Hc & Hfr). rewrite Hrun.
    rewrite foldl_put_range in Hc. repeat split.
    + intros k v Hk. rewrite Hc. by apply lookup_union_Some_l.
    + intros k Hk. rewrite Hc. by apply lookup_union_r.
    + destruct src as [|s]; [done|]. destruct (decide (s = d)) as [->|Hne].
      * rewrite Hc. apply (idemp_L (∪)).
      * unfold ms, contents. by rewrite Hfr.
    + intros l Hl. apply Hfr. congruence.
Qed.
End helper_claims.

Section set_claims.
Context `{Countable T}.
Implicit Types (h : gmap positive (gmap T unit)) (s : mapref) (t : T).

(** C7. After [s.Add(t)], [s.Has(t)] is true (the one [Add] that does not
    return is on a nil set); after [s.Remove(t)], [s.Has(t)] is false;
    doing either twice leaves what doing it once leaves. *)
Theorem Set_add_remove h s t :
  match GoSet.Add s t h with
  | Ok (_, h') => GoSet.Has s t h' = Ok (true, h')
  | Fault e => s = Nil
  end
  ∧ (∀ l, ∃ h', GoSet.Add (Ref l) t h = Ok (tt, h'))
  ∧ (∃ h', GoSet.Remove s t h = Ok (tt, h') ∧ GoSet.Has s t h' = Ok (false, h'))
  ∧ (GoSet.Add s t ;; GoSet.Add s t) h = GoSet.Add s t h
  ∧ (GoSet.Remove s t ;; GoSet.Remove s t) h = GoSet.Remove s t h.
Proof.
  unfold GoSet.Add, GoSet.Remove, GoSet.Has, store, delete_key, index_ok, mbind, M_bind.
  destruct s as [|l]; repeat split; eauto.
  - f_equal. f_equal. apply bool_decide_eq_true.
    rewrite contents_insert_eq, lookup_insert_eq. eauto.
  - eexists. split; [done|]. f_equal. f_equal. apply bool_decide_eq_false.
    rewrite contents_insert_eq, lookup_delete_eq. by intros [? ?].
  - by rewrite contents_insert_eq, insert_insert_eq, insert_insert_eq.
  - by rewrite contents_insert_eq, insert_insert_eq, delete_delete_eq.
Qed.
End set_claims.

(** ** Filling a slice from a loop *)

Lemma fold_each_ext {Σ A B} (f g : B → A → M Σ B) l :
  (∀ b x σ, f b x σ = g b x σ) → ∀ b σ, fold_each l b f σ = fold_each l b g σ.
Proof.
  intros Hfg. induction l as [|x l IH]; intros b σ; simpl; [done|].
  unfold mbind, M_bind. rewrite Hfg. destruct (g b x σ) as [[b' σ']|e]; [apply IH | done].
Qed.

(** [for ... { s[i] = π(e); i++ }] over a slice with a slot for every
    element never indexes out of range and fills the slots in order. *)
Lemma fill_loop {Σ A B} (π : A → B) es : ∀ (pre rest : list B) (σ : Σ),
  length rest = length es →
  fold_each es (length pre, pre ++ rest)
    (λ '(i, s) e, s' ← slice_set s i (π e); mret (S i, s')) σ
  = Ok ((length pre + length es, pre ++ (π <$> es)), σ).
Proof.
  induction es as [|e es IH]; intros pre rest σ Hlen; simpl.
  { destruct rest; [|done]. by rewrite Nat.add_0_r. }
  destruct rest as [|z rest]; [done|]. injection Hlen as Hlen.
  erewrite bind_ok; last first.
  { erewrite bind_ok; [reflexivity|]. unfold slice_set.
    rewrite decide_True by (rewrite length_app; simpl; lia). reflexivity. }
  replace (<[length pre := π e]> (pre ++ z :: rest)) with ((pre ++ [π e]) ++ rest).
  - replace (S (length pre)) with (length (pre ++ [π e])) by (rewrite length_app; simpl; lia).
    rewrite (IH (pre ++ [π e]) rest σ Hlen). rewrite length_app, <-(assoc_L (++)). simpl.
    do 3 f_equal. lia.
  - rewrite <-(assoc_L (++)). simpl. rewrite insert_app_r_alt by lia.
    by rewrite Nat.sub_diag.
Qed.

(** ** Calls into the world, and loops of them *)

Section world_loops.
Context `{Countable K} {V W S : Type}.

Lemma foldl_world {A} (g : A → W → W) (xs : list A) : ∀ h (s : S) w,
  foldl (λ st x, State (K := K) (V := V) (heap st) (self st) (g x (world st)))
        (State h s w) xs
  = State h s (foldl (λ w x, g x w) w xs).
Proof. induction xs as [|x xs IH]; intros h s w; [done|]. apply IH. Qed.

Lemma for_each_call {A} (g : A → W → W) (xs : list A) h (s : S) w :
  for_each xs (λ x, call (g x)) (State (K := K) (V := V) h s w)
  = Ok (tt, State h s (foldl (λ w x, g x w) w xs)).
Proof.
  rewrite (for_each_steps (λ x st, State (heap st) (self st) (g x (world st)))) by done.
  by rewrite foldl_world.
Qed.

Lemma on_heap_for_each {A} (b : A → M (gmap positive (gmap K V)) unit) xs :
  ∀ st : state K V W S,
    for_each xs (λ x, on_heap (b x)) st = on_heap (for_each xs b) st.
Proof.
  induction xs as [|x xs IH]; intros st; simpl; [by destruct st|].
  unfold mbind, M_bind, on_heap at 1 3.
  destruct (b x (heap st)) as [[[] h']|e]; [|done]. by rewrite IH.
Qed.

Lemma foldl_filter {A B} (P : A → bool) (g : A → B → B) (xs : list A) : ∀ b,
  foldl (λ b x, if P x then g x b else b) b xs
  = foldl (λ b x, g x b) b (filter (λ x, P x = true) xs).
Proof.
  induction xs as [|x xs IH]; intros b; simpl; [done|].
  rewrite IH, filter_cons. destruct (P x) eqn:HP.
  - by rewrite decide_True.
  - by rewrite decide_False.
Qed.
End world_loops.

(** ** Sync *)

Section sync_facts.
Context `{Countable K} {V W : Type} `{!Zero K} `{!Zero V} `{!MapRange K}.
Implicit Types (h : gmap positive (gmap K V)) (m : gmap K V) (l : positive) (w : W).

Lemma NewSync_run h :
  Sync.NewSync h = Ok (sync_at (fresh (dom h)), <[fresh (dom h) := ∅]> h).
Proof. done. Qed.

(** The snapshot loop of [Keys] and [Values]. *)
Lemma snapshot_loop {A} `{!Zero A} {Σ} (π : K * V → A) m (σ : Σ)
    (body : nat * list A → K * V → M Σ (nat * list A)) :
  (∀ i s e σ, body (i, s) e σ = (s' ← slice_set s i (π e); mret (S i, s')) σ) →
  fold_each (range m) (0, make_slice (size m)) body σ
  = Ok ((size m, π <$> range m), σ).
Proof.
  intros Hbody.
  rewrite (fold_each_ext body (λ '(i, s) e, s' ← slice_set s i (π e); mret (S i, s')))
    by (intros [i s] e σ'; apply Hbody).
  rewrite <-(length_range m) at 2.
  apply (fill_loop π (range m) [] (make_slice (size m)) σ).
  unfold make_slice. by rewrite length_replicate, length_range.
Qed.

Lemma Sync_Keys_run h l m w :
  h !! l = Some m →
  Sync.Keys (State h (sync_at l) w) = Ok ((range m).*1, State h (sync_at l) w).
Proof.
  intros Hl. unfold Sync.Keys.
  do 4 (erewrite bind_ok; [|reflexivity]). simpl. rewrite (contents_live h l m Hl).
  erewrite bind_ok; last first.
  { apply (snapshot_loop fst). by intros i s [k v] σ. }
  done.
Qed.

Lemma Sync_Values_run h l m w :
  h !! l = Some m →
  Sync.Values (State h (sync_at l) w) = Ok ((range m).*2, State h (sync_at l) w).
Proof.
  intros Hl. unfold Sync.Values.
  do 4 (erewrite bind_ok; [|reflexivity]). simpl. rewrite (contents_live h l m Hl).
  erewrite bind_ok; last first.
  { apply (snapshot_loop snd). by intros i s [k v] σ. }
  done.
Qed.

Lemma Sync_Size_run h l m w :
  h !! l = Some m →
  Sync.Size (State h (sync_at l) w) = Ok (Z.of_nat (size m), State h (sync_at l) w).
Proof.
  intros Hl. unfold Sync.Size, mbind, M_bind, field, on_heap, len. simpl.
  by rewrite (contents_live h l m Hl).
Qed.

Lemma Sync_Get_run h l m w key :
  h !! l = Some m →
  Sync.Get key (State h (sync_at l) w)
  = Ok (default zero (m !! key), State h (sync_at l) w).
Proof.
  intros Hl. unfold Sync.Get, mbind, M_bind, field, on_heap, index. simpl.
  by rewrite (contents_live h l m Hl).
Qed.

Lemma Sync_Set_run h l m w key val :
  h !! l = Some m →
  Sync.Set_ key val (State h (sync_at l) w)
  = Ok (tt, State (<[l := <[key := val]> m]> h) (sync_at l) w).
Proof.
  intros Hl. unfold Sync.Set_, Sync.set, mbind, M_bind, field, on_heap, store. simpl.
  by rewrite (contents_live h l m Hl).
Qed.

Lemma delete_loop l (keys : list K) : ∀ h m (s : SyncT) w,
  h !! l = Some m → data s = Ref l →
  for_each keys (λ key, d ← field data; on_heap (delete_key d key)) (State h s w)
  = Ok (tt, State (<[l := foldl (λ m k, delete k m) m keys]> h) s w).
Proof.
  induction keys as [|key keys IH]; intros h m s w Hl Hd; simpl.
  { by rewrite insert_id. }
  erewrite bind_ok; last first.
  { unfold mbind, M_bind, field, on_heap, delete_key. simpl. rewrite Hd.
    rewrite (contents_live h l m Hl). reflexivity. }
  erewrite IH; [|apply lookup_insert_eq|done]. by rewrite insert_insert_eq.
Qed.

Lemma Sync_Delete_run h l m w keys :
  h !! l = Some m →
  Sync.Delete keys (State h (sync_at l) w)
  = Ok (tt, State (<[l := foldl (λ m k, delete k m) m keys]> h) (sync_at l) w).
Proof.
  intros Hl. unfold Sync.Delete.
  erewrite bind_ok; [|reflexivity].
  erewrite bind_ok; [|by apply (delete_loop l keys h m)]. done.
Qed.

Lemma Sync_Each_run h l m w (f : K → V → W → W) :
  h !! l = Some m →
  Sync.Each f (State h (sync_at l) w)
  = Ok (tt, State h (sync_at l) (foldl (λ w e, f e.1 e.2 w) w (range m))).
Proof.
  intros Hl. unfold Sync.Each.
  do 3 (erewrite bind_ok; [|reflexivity]). simpl. rewrite (contents_live h l m Hl).
  erewrite bind_ok; last first.
  { rewrite (for_each_ext _ (λ e, call (f e.1 e.2))) by (by intros [k v] σ).
    apply (for_each_call (λ e, f e.1 e.2)). }
  done.
Qed.

Lemma Sync_Find_run h l m w (f : K → V → bool) :
  h !! l = Some m →
  Sync.Find f (State h (sync_at l) w)
  = Ok (Sync.find_first (range m) f, State h (sync_at l) w).
Proof.
  intros Hl. unfold Sync.Find, mbind, M_bind, field, on_heap, entries. simpl.
  by rewrite (contents_live h l m Hl).
Qed.

Lemma Sync_Reduce_run {A} h l m w (a : A) (f : A → K → V → A) :
  h !! l = Some m →
  Sync.ReduceSync Self a f (State h (sync_at l) w)
  = Ok (foldl (λ a e, f a e.1 e.2) a (range m), State h (sync_at l) w).
Proof.
  intros Hl. unfold Sync.ReduceSync.
  do 3 (erewrite bind_ok; [|reflexivity]). simpl. rewrite (contents_live h l m Hl).
  erewrite bind_ok; last first.
  { rewrite (fold_each_ext _ (λ a e, mret (f a e.1 e.2))) by (by intros b [k v] σ).
    apply fold_each_pure. }
  done.
Qed.

Lemma Sync_Filter_run h l m w (f : K → V → bool) :
  h !! l = Some m →
  ∃ h', Sync.Filter f (State h (sync_at l) w)
        = Ok (Ref (fresh (dom h)), State h' (sync_at l) w)
      ∧ contents h' (Ref (fresh (dom h))) = filter (λ e, f e.1 e.2 = true) m
      ∧ ∀ l', l' ≠ fresh (dom h) → h' !! l' = h !! l'.
Proof.
  intros Hl. pose proof (make_fresh h) as Hr. set (r := fresh (dom h)) in *.
  assert (l ≠ r) as Hlr by (intros ->; congruence).
  destruct (guarded_store_loop f r (range m) (<[r := ∅]> h)) as (h' & Hrun & Hc & Hfr).
  exists h'. split; [|split].
  - unfold Sync.Filter.
    do 4 (erewrite bind_ok; [|reflexivity]). simpl. fold r.
    rewrite contents_insert_ne, (contents_live h l m Hl) by done.
    erewrite bind_ok; last first.
    { rewrite (for_each_ext _ (λ e, on_heap
                (let '(k, v) := e in if f k v then store (Ref r) k v else mret tt))).
      - rewrite on_heap_for_each. unfold on_heap. simpl. rewrite Hrun. reflexivity.
      - intros [k v] σ. by destruct (f k v), σ. }
    done.
  - by rewrite Hc, contents_insert_eq, foldl_put_if_filter.
  - intros l' Hl'. by rewrite Hfr, lookup_insert_ne.
Qed.
End sync_facts.

(** C4. From a new Sync: [Set("a", 1)], [Set("b", 2)]; then [Keys()] has
    two elements, ["a"] and ["b"] in some order, and [Get("a")] is 1; after
    [Delete("a")], [Size()] is 1 and [Get("a")] is 0. *)
Theorem Sync_scenario `{!MapRange string} {W : Type}
    (h : gmap positive (gmap string Z)) (w : W) :
  ∃ s h0 ks st',
    Sync.NewSync h = Ok (s, h0)
    ∧ (Sync.Set_ "a" 1%Z ;;
       Sync.Set_ "b" 2%Z ;;
       ks ← Sync.Keys;
       a ← Sync.Get "a";
       Sync.Delete ["a"] ;;
       n ← Sync.Size;
       a' ← Sync.Get "a";
       mret (ks, a, n, a')) (State h0 s w)
      = Ok ((ks, 1%Z, 1%Z, 0%Z), st')
    ∧ length ks = 2
    ∧ ks ≡ₚ ["a"; "b"].
Proof.
  set (l := fresh (dom h)). set (m2 := <["b" := 2%Z]> (<["a" := 1%Z]> (∅ : gmap string Z))).
  exists (sync_at l), (<[l := ∅]> h), (range m2).*1. eexists.
  split; [apply NewSync_run|].
  assert ((range m2).*1 ≡ₚ ["a"; "b"]) as Hks.
  { rewrite (range_perm Z m2). unfold m2.
    rewrite map_to_list_insert by done. rewrite map_to_list_insert by done.
    rewrite map_to_list_empty. simpl. apply Permutation_swap. }
  split; [|split; [by rewrite Hks | exact Hks]].
  erewrite bind_ok; [|by apply Sync_Set_run, lookup_insert_eq].
  erewrite bind_ok; [|by apply Sync_Set_run, lookup_insert_eq].
  rewrite !insert_insert_eq. fold m2.
  erewrite bind_ok; [|by apply Sync_Keys_run, lookup_insert_eq].
  erewrite bind_ok; [|by apply Sync_Get_run, lookup_insert_eq].
  erewrite bind_ok; [|by apply Sync_Delete_run, lookup_insert_eq].
  rewrite !insert_insert_eq.
  erewrite bind_ok; [|by apply Sync_Size_run, lookup_insert_eq].
  erewrite bind_ok; [|by apply Sync_Get_run, lookup_insert_eq].
  reflexivity.
Qed.

(** ** Observable *)

Section observable_facts.
Context `{Countable K} {V W : Type} `{!Zero K} `{!Zero V} `{!MapRange K}.
Implicit Types (h : gmap positive (gmap K V)) (m : gmap K V) (l : positive) (w : W).
Implicit Types (os : list (Observer K V W)) (o : ObservableT K V W).

Lemma callback_run h o w key new old :
  Observable.callback key new old (State h o w)
  = Ok (tt, State h o (notified (obs o) key new old w)).
Proof.
  unfold Observable.callback. erewrite bind_ok; [|reflexivity].
  apply (for_each_call (λ ob, Observe ob key new old)).
Qed.

Lemma set_run h o l m w key val :
  h !! l = Some m → data (sync o) = Ref l →
  Observable.set key val (State h o w)
  = Ok (tt, State (<[l := <[key := val]> m]> h) o
                  (notified (obs o) key val (default zero (m !! key)) w)).
Proof.
  intros Hl Hd. unfold Observable.set.
  do 2 (erewrite bind_ok; [|reflexivity]). simpl. rewrite Hd.
  erewrite bind_ok; [|apply callback_run].
  unfold on_heap, index, store. simpl. by rewrite (contents_live h l m Hl).
Qed.

Lemma lock_run h l os w :
  Observable.on_sync (Sync.on_rw rw_Lock) (State h (obs_at l os) w)
  = Ok (tt, State h (obs_locked l os) w).
Proof. done. Qed.

Lemma unlock_run h l os w :
  Observable.on_sync (Sync.on_rw rw_Unlock) (State h (obs_locked l os) w)
  = Ok (tt, State h (obs_at l os) w).
Proof. done. Qed.

Lemma Observable_Set_run h l m os w key val :
  h !! l = Some m →
  Observable.Set_ key val (State h (obs_at l os) w)
  = Ok (tt, State (<[l := <[key := val]> m]> h) (obs_at l os)
                  (notified os key val (default zero (m !! key)) w)).
Proof.
  intros Hl. unfold Observable.Set_.
  erewrite bind_ok; [|apply lock_run].
  erewrite bind_ok; [|by apply (set_run _ _ l m)].
  apply unlock_run.
Qed.

(** A method of the embedded Sync that leaves the Sync as it found it. *)
Lemma on_sync_run {A} (c : M (state K V W SyncT) A) h h' l os w w' a :
  c (State h (sync_at l) w) = Ok (a, State h' (sync_at l) w') →
  Observable.on_sync c (State h (obs_at l os) w) = Ok (a, State h' (obs_at l os) w').
Proof. intros Hc. unfold Observable.on_sync, on_field. simpl. by rewrite Hc. Qed.

Lemma Observable_Get_run h l m os w key :
  h !! l = Some m →
  Observable.Get key (State h (obs_at l os) w)
  = Ok (default zero (m !! key), State h (obs_at l os) w).
Proof. intros Hl. by apply on_sync_run, Sync_Get_run. Qed.

Lemma delete_notify_loop l os (keys : list K) : ∀ h m w,
  h !! l = Some m →
  for_each keys (λ key,
    d ← field (λ o, data (sync o));
    old ← on_heap (index d key);
    Observable.callback key zero old ;;
    on_heap (delete_key d key)) (State h (obs_locked l os) w)
  = Ok (tt, State (<[l := (delete_notified os keys (m, w)).1]> h) (obs_locked l os)
                  (delete_notified os keys (m, w)).2).
Proof.
  induction keys as [|key keys IH]; intros h m w Hl; simpl.
  { by rewrite insert_id. }
  erewrite bind_ok; last first.
  { do 2 (erewrite bind_ok; [|reflexivity]). simpl.
    erewrite bind_ok; [|apply callback_run].
    unfold on_heap, delete_key. simpl. rewrite (contents_live h l m Hl). reflexivity. }
  erewrite IH; [|apply lookup_insert_eq]. by rewrite insert_insert_eq.
Qed.

Lemma Observable_Delete_run h l m os w keys :
  h !! l = Some m →
  Observable.Delete keys (State h (obs_at l os) w)
  = Ok (tt, State (<[l := (delete_notified os keys (m, w)).1]> h) (obs_at l os)
                  (delete_notified os keys (m, w)).2).
Proof.
  intros Hl. unfold Observable.Delete.
  erewrite bind_ok; [|apply lock_run].
  erewrite bind_ok; [|by apply delete_notify_loop].
  apply unlock_run.
Qed.

Lemma delete_notified_map os keys : ∀ m w,
  (delete_notified os keys (m, w)).1 = foldl (λ m k, delete k m) m keys.
Proof. induction keys as [|key keys IH]; intros m w; [done|]. apply IH. Qed.

Lemma foldl_delete_lookup (keys : list K) : ∀ m k,
  foldl (λ m k, delete k m) m keys !! k = if decide (k ∈ keys) then None else m !! k.
Proof.
  induction keys as [|key keys IH]; intros m k; cbn [foldl].
  { destruct (decide (k ∈ [])) as [Hin|]; [by apply not_elem_of_nil in Hin | done]. }
  rewrite IH. destruct (decide (k ∈ keys)) as [Hin|Hnin].
  - rewrite decide_True; [done|]. by apply list_elem_of_further.
  - destruct (decide (k = key)) as [->|Hne].
    + rewrite decide_True; [apply lookup_delete_eq | apply list_elem_of_here].
    + rewrite lookup_delete_ne by done. rewrite decide_False; [done|].
      intros [?|?]%elem_of_cons; done.
Qed.

Lemma delete_func_loop l os (del : K → V → bool) es : ∀ h m w,
  h !! l = Some m →
  for_each es (λ '(k, v),
    if del k v then
      Observable.callback k zero v ;;
      d' ← field (λ o, data (sync o));
      on_heap (delete_key d' k)
    else mret tt) (State h (obs_locked l os) w)
  = Ok (tt, State (<[l := foldl (drop_if del) m es]> h) (obs_locked l os)
                  (foldl (λ w e, if del e.1 e.2 then notified os e.1 zero e.2 w else w)
                         w es)).
Proof.
  induction es as [|[k v] es IH]; intros h m w Hl; simpl.
  { by rewrite insert_id. }
  unfold drop_if at 2; simpl. destruct (del k v).
  - erewrite bind_ok; last first.
    { erewrite bind_ok; [|apply callback_run].
      erewrite bind_ok; [|reflexivity].
      unfold on_heap, delete_key. simpl. rewrite (contents_live h l m Hl). reflexivity. }
    erewrite IH; [|apply lookup_insert_eq]. by rewrite insert_insert_eq.
  - erewrite bind_ok; [|reflexivity]. by apply IH.
Qed.

Lemma Observable_DeleteFunc_run h l m os w (del : K → V → bool) :
  h !! l = Some m →
  Observable.DeleteFunc del (State h (obs_at l os) w)
  = Ok (tt, State (<[l := filter (λ e, del e.1 e.2 = false) m]> h) (obs_at l os)
                  (foldl (λ w e, notified os e.1 zero e.2 w) w
                         (filter (λ e, del e.1 e.2 = true) (range m)))).
Proof.
  intros Hl. unfold Observable.DeleteFunc.
  erewrite bind_ok; [|apply lock_run].
  do 2 (erewrite bind_ok; [|reflexivity]). simpl. rewrite (contents_live h l m Hl).
  erewrite bind_ok; [|by apply delete_func_loop].
  rewrite foldl_drop_if_filter.
  rewrite (foldl_filter (λ e, del e.1 e.2) (λ e, notified os e.1 zero e.2)).
  apply unlock_run.
Qed.
End observable_facts.

Section observable_ready.
Context `{Countable K} {V W : Type} `{!Zero K} `{!Zero V} `{!MapRange K}.
Implicit Types (st : state K V W (ObservableT K V W)).

Lemma NewObservable_ready (h : gmap positive (gmap K V)) (w : W) :
  ∃ o h0, Observable.NewObservable h = Ok (o, h0) ∧ ready (State h0 o w).
Proof.
  exists (obs_at (fresh (dom h)) []), (<[fresh (dom h) := ∅]> h). split; [done|].
  exists (fresh (dom h)), [], ∅. split; [done|]. apply lookup_insert_eq.
Qed.

(** Every method that writes returns from a ready state to a ready state. *)
Lemma ready_kept st :
  ready st →
  (∀ key val, ∃ st', Observable.Set_ key val st = Ok (tt, st') ∧ ready st')
  ∧ (∀ keys, ∃ st', Observable.Delete keys st = Ok (tt, st') ∧ ready st')
  ∧ (∀ del, ∃ st', Observable.DeleteFunc del st = Ok (tt, st') ∧ ready st')
  ∧ (∀ f, ∃ st', Observable.Observe f st = Ok (tt, st') ∧ ready st').
Proof.
  destruct st as [h o w]. intros (l & os & m & Ho & Hl). simpl in Ho, Hl. subst o.
  split; [|split; [|split]].
  - intros key val. eexists. split; [by apply Observable_Set_run|].
    exists l, os. eexists. split; [done|]. apply lookup_insert_eq.
  - intros keys. eexists. split; [by apply Observable_Delete_run|].
    exists l, os. eexists. split; [done|]. apply lookup_insert_eq.
  - intros del. eexists. split; [by apply Observable_DeleteFunc_run|].
    exists l, os. eexists. split; [done|]. apply lookup_insert_eq.
  - intros f. eexists. split; [reflexivity|]. by exists l, (os ++ [f]), m.
Qed.

(** The log of the observers made to write their invocations down: one
    line for each, in the order of the list. *)
Lemma notified_log (os : list (Observer K V W)) key new old : ∀ n w log,
  notified (imap (λ i, logging (n + i)) os) key new old (w, log)
  = (notified os key new old w,
     log ++ imap (λ i _, (n + i, key, new, old)) os).
Proof.
  unfold notified. induction os as [|o os IH]; intros n w log; simpl.
  { by rewrite (right_id_L [] (++)). }
  rewrite (imap_ext _ (λ i, logging (S n + i)));
    [|intros i x _; simpl; f_equal; lia].
  rewrite IH, <-(assoc_L (++)). simpl. rewrite Nat.add_0_r. do 3 f_equal.
  apply imap_ext. intros. simpl. do 3 f_equal. lia.
Qed.
End observable_ready.

Section observable_claims.
Context `{Countable K} {V W : Type} `{!Zero K} `{!Zero V} `{!MapRange K}.
Implicit Types (h : gmap positive (gmap K V)) (m : gmap K V) (l : positive) (w : W).
Implicit Types (os : list (Observer K V W)).

(** C1. [Set(key, val)] returns, having invoked each registered observer
    once with [(key, val, old)], the first registered first, where [old] is
    the value under [key] or the zero value; when the observers have all
    run, [key] still reads [old], and only then is [val] stored; after
    [Set], [Get(key)] is [val]. An observer registered now comes last.
    With one observer and [key] absent, [Set(key, v1); Set(key, v2)] invokes
    it with [(key, v1, zero)] and then with [(key, v2, v1)]. *)
Theorem Observable_Set_notifies h l m os w key val :
  h !! l = Some m →
  let old := default zero (m !! key) in
  let st := State h (obs_at l os) w in
  let st' := State (<[l := <[key := val]> m]> h) (obs_at l os)
                   (notified os key val old w) in
  Observable.Set_ key val st = Ok (tt, st')
  ∧ (Observable.on_sync (Sync.on_rw rw_Lock) ;;
     Observable.callback key val old ;;
     Observable.Get key) st
    = Ok (old, State h (obs_locked l os) (notified os key val old w))
  ∧ Observable.Set_ key val st
    = (Observable.on_sync (Sync.on_rw rw_Lock) ;;
       Observable.callback key val old ;;
       on_heap (store (Ref l) key val) ;;
       Observable.on_sync (Sync.on_rw rw_Unlock)) st
  ∧ Observable.Get key st' = Ok (val, st')
  ∧ (∀ f, Observable.Observe f st = Ok (tt, State h (obs_at l (os ++ [f])) w))
  ∧ (∀ ob v1 v2, m !! key = None →
       (Observable.Set_ key v1 ;; Observable.Set_ key v2) (State h (obs_at l [ob]) w)
       = Ok (tt, State (<[l := <[key := v2]> m]> h) (obs_at l [ob])
                       (Observe ob key v2 v1 (Observe ob key v1 zero w)))).
Proof.
  intros Hl old st st'.
  assert (Observable.Set_ key val st = Ok (tt, st')) as HSet
    by (by apply Observable_Set_run).
  split; [exact HSet|]. split; [|split; [|split; [|split]]].
  - erewrite bind_ok; [|apply lock_run].
    erewrite bind_ok; [|apply callback_run].
    unfold Observable.Get, Observable.on_sync, on_field, Sync.Get, mbind, M_bind,
      field, on_heap, index. simpl. by rewrite (contents_live h l m Hl).
  - rewrite HSet. symmetry.
    erewrite bind_ok; [|apply lock_run].
    erewrite bind_ok; [|apply callback_run].
    erewrite bind_ok; last first.
    { unfold on_heap, store. simpl. rewrite (contents_live h l m Hl). reflexivity. }
    apply unlock_run.
  - unfold st'. erewrite Observable_Get_run; [|apply lookup_insert_eq].
    by rewrite lookup_insert_eq.
  - done.
  - intros ob v1 v2 Hkey.
    erewrite bind_ok; [|by apply Observable_Set_run].
    erewrite Observable_Set_run; [|apply lookup_insert_eq].
    by rewrite Hkey, lookup_insert_eq, !insert_insert_eq.
Qed.

(** C2. [Delete(keys...)] returns, having taken the keys in the order
    given: for each it invoked every observer once with [(key, zero, the
    value then under key or zero)] and then removed the entry (for one key:
    lock, observers, delete, unlock). A key that is absent is announced all
    the same, with old value zero. Afterwards none of the keys is present,
    and the other entries are as they were. *)
Theorem Observable_Delete_notifies h l m os w keys :
  h !! l = Some m →
  let st := State h (obs_at l os) w in
  let m' := (delete_notified os keys (m, w)).1 in
  Observable.Delete keys st
    = Ok (tt, State (<[l := m']> h) (obs_at l os) (delete_notified os keys (m, w)).2)
  ∧ (∀ key keys', delete_notified os (key :: keys') (m, w)
       = delete_notified os keys'
           (delete key m, notified os key zero (default zero (m !! key)) w))
  ∧ (∀ key, Observable.Delete [key] st
       = (Observable.on_sync (Sync.on_rw rw_Lock) ;;
          Observable.callback key zero (default zero (m !! key)) ;;
          on_heap (delete_key (Ref l) key) ;;
          Observable.on_sync (Sync.on_rw rw_Unlock)) st)
  ∧ (∀ key, m !! key = None →
       Observable.Delete [key] st
       = Ok (tt, State h (obs_at l os) (notified os key zero zero w)))
  ∧ (∀ key, key ∈ keys → m' !! key = None)
  ∧ (∀ key, key ∉ keys → m' !! key = m !! key).
Proof.
  intros Hl st m'. split; [by apply Observable_Delete_run|].
  split; [done|]. split; [|split; [|split]].
  - intros key. unfold st. rewrite (Observable_Delete_run h l m) by done. symmetry.
    erewrite bind_ok; [|apply lock_run].
    erewrite bind_ok; [|apply callback_run].
    erewrite bind_ok; last first.
    { unfold on_heap, delete_key. simpl. rewrite (contents_live h l m Hl). reflexivity. }
    apply unlock_run.
  - intros key Hkey. unfold st. rewrite (Observable_Delete_run h l m) by done.
    simpl. by rewrite Hkey, delete_id, insert_id.
  - intros key Hin. unfold m'. rewrite delete_notified_map, foldl_delete_lookup.
    by rewrite decide_True.
  - intros key Hin. unfold m'. rewrite delete_notified_map, foldl_delete_lookup.
    by rewrite decide_False.
Qed.

(** C3. [DeleteFunc(test)] returns, having invoked, for each entry
    [(k, v)] that passes [test], taken once in the order of iteration, every
    observer once with [(k, zero, v)], and having removed these entries and
    no others: what is left is the entries that do not pass. On a map of one
    passing entry it is: lock, observers, delete, unlock. *)
Theorem Observable_DeleteFunc_notifies h l m os w (test : K → V → bool) :
  h !! l = Some m →
  let hits := filter (λ e, test e.1 e.2 = true) (range m) in
  let m' := filter (λ e, test e.1 e.2 = false) m in
  Observable.DeleteFunc test (State h (obs_at l os) w)
    = Ok (tt, State (<[l := m']> h) (obs_at l os)
                    (foldl (λ w e, notified os e.1 zero e.2 w) w hits))
  ∧ NoDup hits
  ∧ (∀ k v, (k, v) ∈ hits ↔ m !! k = Some v ∧ test k v = true)
  ∧ (∀ k v, m' !! k = Some v ↔ m !! k = Some v ∧ test k v = false)
  ∧ (∀ k v, m = {[k := v]} → test k v = true →
       Observable.DeleteFunc test (State h (obs_at l os) w)
       = (Observable.on_sync (Sync.on_rw rw_Lock) ;;
          Observable.callback k zero v ;;
          on_heap (delete_key (Ref l) k) ;;
          Observable.on_sync (Sync.on_rw rw_Unlock)) (State h (obs_at l os) w)).
Proof.
  intros Hl hits m'. split; [by apply Observable_DeleteFunc_run|].
  split; [|split; [|split]].
  - apply NoDup_filter. eapply NoDup_fmap_1, range_NoDup.
  - intros k v. unfold hits. rewrite list_elem_of_filter, elem_of_range. simpl. tauto.
  - intros k v. apply (map_lookup_filter_Some (λ e, test e.1 e.2 = false)).
  - intros k v Hm Ht. rewrite (Observable_DeleteFunc_run h l m) by done. symmetry.
    erewrite bind_ok; [|apply lock_run].
    erewrite bind_ok; [|apply callback_run].
    erewrite bind_ok; last first.
    { unfold on_heap, delete_key. simpl. rewrite (contents_live h l m Hl). reflexivity. }
    rewrite unlock_run. subst m.
    assert (range ({[k := v]} : gmap K V) = [(k, v)]) as ->.
    { apply Permutation_singleton_r. by rewrite range_perm, map_to_list_singleton. }
    rewrite filter_cons, decide_True by done. rewrite filter_nil. simpl.
    assert (filter (λ e, test e.1 e.2 = false) ({[k := v]} : gmap K V)
            = delete k {[k := v]}) as ->; [|done].
    apply map_eq. intros k'. rewrite lookup_delete.
    destruct (decide (k = k')) as [<-|Hne].
    + apply map_lookup_filter_None. right. intros v' Hv'.
      rewrite lookup_singleton_eq in Hv'. injection Hv' as <-. simpl. by rewrite Ht.
    + rewrite lookup_singleton_ne by done.
      apply map_lookup_filter_None. left. by rewrite lookup_singleton_ne.
Qed.

(** C9. [Set] does not look whether the value changes: when [key] already
    holds [val], every call still invokes every observer, with new and old
    both [val]; and the setter that [Lock] hands to its callback is the same
    notify-then-store. *)
Theorem Observable_Set_no_change_detection h l m os w key val :
  h !! l = Some m → m !! key = Some val →
  let st := State h (obs_at l os) w in
  Observable.Set_ key val st
    = Ok (tt, State h (obs_at l os) (notified os key val val w))
  ∧ (Observable.Set_ key val ;; Observable.Set_ key val) st
    = Ok (tt, State h (obs_at l os) (notified os key val val (notified os key val val w)))
  ∧ Observable.Lock (λ set, set key val) st
    = Ok (tt, State h (obs_at l os) (notified os key val val w))
  ∧ (∀ f, Observable.Lock f st
       = (Observable.on_sync (Sync.on_rw rw_Lock) ;;
          f Observable.set ;;
          Observable.on_sync (Sync.on_rw rw_Unlock)) st).
Proof.
  intros Hl Hkey st.
  assert (∀ w', Observable.Set_ key val (State h (obs_at l os) w')
                = Ok (tt, State h (obs_at l os) (notified os key val val w'))) as HSet.
  { intros w'. rewrite (Observable_Set_run h l m) by done.
    rewrite Hkey. simpl. by rewrite (insert_id m), (insert_id h) by done. }
  split; [apply HSet|]. split; [|split; [apply HSet | done]].
  erewrite bind_ok; [|apply HSet]. apply HSet.
Qed.

(** C10. [Keys], [Values], [Size], [Get], [Each], [Filter], [Find] and
    [ReduceObservable] return; the entries, the observer list and the lock
    are afterwards as before, and so is the world, which no observer has
    touched: [Each] changes it by its own callback alone, and [Filter] adds
    one new map to the heap. *)
Theorem Observable_reads_silent h l m os w :
  h !! l = Some m →
  let st := State h (obs_at l os) w in
  Observable.Keys st = Ok ((range m).*1, st)
  ∧ Observable.Values st = Ok ((range m).*2, st)
  ∧ Observable.Size st = Ok (Z.of_nat (size m), st)
  ∧ (∀ key, Observable.Get key st = Ok (default zero (m !! key), st))
  ∧ (∀ f, Observable.Each f st
       = Ok (tt, State h (obs_at l os) (foldl (λ w e, f e.1 e.2 w) w (range m))))
  ∧ (∀ f, ∃ r h', Observable.Filter f st = Ok (Ref r, State h' (obs_at l os) w)
       ∧ h !! r = None
       ∧ contents h' (Ref r) = filter (λ e, f e.1 e.2 = true) m
       ∧ h' !! l = Some m
       ∧ ∀ l', l' ≠ r → h' !! l' = h !! l')
  ∧ (∀ f, Observable.Find f st = Ok (Sync.find_first (range m) f, st))
  ∧ (∀ A (a : A) f, Observable.ReduceObservable a f st
       = Ok (foldl (λ a e, f a e.1 e.2) a (range m), st)).
Proof.
  intros Hl st. repeat split.
  - by apply on_sync_run, Sync_Keys_run.
  - by apply on_sync_run, Sync_Values_run.
  - by apply on_sync_run, Sync_Size_run.
  - intros key. by apply on_sync_run, Sync_Get_run.
  - intros f. by apply on_sync_run, Sync_Each_run.
  - intros f. destruct (Sync_Filter_run h l m w f Hl) as (h' & Hrun & Hc & Hfr).
    exists (fresh (dom h)), h'. split; [by apply on_sync_run|].
    split; [apply make_fresh|]. split; [done|]. split; [|done].
    rewrite Hfr; [done|]. intros ->. by rewrite make_fresh in Hl.
  - intros f. by apply on_sync_run, Sync_Find_run.
  - intros A a f. by apply on_sync_run, Sync_Reduce_run.
Qed.
End observable_claims.

(** ** Runs on concrete inputs *)

(** The observable scenario of the specification: the observer records
    [("x", 10, 0)], [("x", 20, 10)] and, on [Delete("x")], [("x", 0, 20)]. *)
Example Observable_scenario :
  ∃ o h0 st',
    Observable.NewObservable (∅ : gmap positive (gmap string Z)) = Ok (o, h0)
    ∧ (Observable.Observe recorder ;;
       Observable.Set_ "x" 10%Z ;;
       Observable.Set_ "x" 20%Z ;;
       Observable.Delete ["x"]) (State h0 o []) = Ok (tt, st')
    ∧ world st' = [("x", 10%Z, 0%Z); ("x", 20%Z, 10%Z); ("x", 0%Z, 20%Z)].
Proof. do 3 eexists. split; [reflexivity|]. split; vm_compute; reflexivity. Qed.

(** Under the descending order, [Keys] of the Sync scenario is ["b"; "a"]. *)
Example Sync_Keys_descending :
  (Sync.Set_ "a" 1%Z ;; Sync.Set_ "b" 2%Z ;; Sync.Keys (MapRange0 := range_desc string))
    (State (W := unit) {[1%positive := ∅]} (sync_at 1) tt)
  = Ok (["b"; "a"], State {[1%positive := {["a" := 1%Z; "b" := 2%Z]}]} (sync_at 1) tt).
Proof. vm_compute. reflexivity. Qed.

(** Writes to a nil map do not return. *)
Example Copy_into_nil :
  Copy (MapRange0 := range_asc string) Nil (Ref 1) h_x = Fault NilMapWrite
  ∧ GoSet.Add Nil "x" (∅ : gmap positive (gmap string unit)) = Fault NilMapWrite.
Proof. split; vm_compute; reflexivity. Qed.

Lemma Observable_Set_notifies_witness :
  h_x !! 1%positive = Some m_x
  ∧ Observable.Set_ "x" 20%Z (State h_x (obs_at 1 [recorder]) [])
    = Ok (tt, State (<[1%positive := <["x" := 20%Z]> m_x]> h_x) (obs_at 1 [recorder])
                    [("x", 20%Z, 10%Z)])
  ∧ m_x !! "y" = None
  ∧ (Observable.Set_ "y" 1%Z ;; Observable.Set_ "y" 2%Z) (State h_x (obs_at 1 [recorder]) [])
    = Ok (tt, State (<[1%positive := <["y" := 2%Z]> m_x]> h_x) (obs_at 1 [recorder])
                    [("y", 1%Z, 0%Z); ("y", 2%Z, 1%Z)]).
Proof.
  split; [reflexivity|]. split.
  - exact (proj1 (Observable_Set_notifies h_x 1 m_x [recorder] [] "x" 20%Z eq_refl)).
  - split; [reflexivity|].
    destruct (Observable_Set_notifies h_x 1 m_x [recorder] [] "y" 0%Z eq_refl)
      as (_ & _ & _ & _ & _ & Htwice).
    exact (Htwice recorder 1%Z 2%Z eq_refl).
Defined.

Lemma Observable_Delete_notifies_witness :
  h_x !! 1%positive = Some m_x
  ∧ Observable.Delete ["x"; "y"] (State h_x (obs_at 1 [recorder]) [])
    = Ok (tt, State (<[1%positive := ∅]> h_x) (obs_at 1 [recorder])
                    [("x", 0%Z, 10%Z); ("y", 0%Z, 0%Z)])
  ∧ m_x !! "y" = None
  ∧ Observable.Delete ["y"] (State h_x (obs_at 1 [recorder]) [])
    = Ok (tt, State h_x (obs_at 1 [recorder]) [("y", 0%Z, 0%Z)]).
Proof.
  split; [reflexivity|].
  destruct (Observable_Delete_notifies h_x 1 m_x [recorder] [] ["x"; "y"] eq_refl)
    as (Hrun & _ & _ & Habsent & _).
  split; [|split; [reflexivity|]].
  - etrans; [exact Hrun|]. vm_compute. reflexivity.
  - exact (Habsent "y" eq_refl).
Defined.

Lemma Observable_DeleteFunc_notifies_witness :
  h_xy !! 1%positive = Some m_xy
  ∧ Observable.DeleteFunc (MapRange0 := range_asc string) above_5
      (State h_xy (obs_at 1 [recorder]) [])
    = Ok (tt, State (<[1%positive := {["y" := 3%Z]}]> h_xy) (obs_at 1 [recorder])
                    [("x", 0%Z, 10%Z)]).
Proof.
  split; [reflexivity|].
  etrans; [exact (proj1 (Observable_DeleteFunc_notifies (MapRange0 := range_asc string)
                           h_xy 1 m_xy [recorder] [] above_5 eq_refl))|].
  vm_compute. reflexivity.
Defined.

Lemma Filter_exact_witness :
  h_xy !! 1%positive = Some m_xy
  ∧ ∃ r h', Filter (MapRange0 := range_asc string) (Ref 1) above_5 h_xy = Ok (Ref r, h')
      ∧ contents h' (Ref r) !! "x" = Some 10%Z
      ∧ contents h' (Ref r) !! "y" = None.
Proof.
  split; [reflexivity|].
  destruct (Filter_exact (MapRange0 := range_asc string) h_xy 1 m_xy above_5 eq_refl)
    as (r & h' & Hrun & _ & Hex & _).
  exists r, h'. split; [exact Hrun|]. split.
  - apply Hex. split; reflexivity.
  - destruct (contents h' (Ref r) !! "y") as [v|] eqn:Hy; [|reflexivity].
    apply Hex in Hy as [Hy Ht]. vm_compute in Hy. injection Hy as <-. discriminate Ht.
Defined.

Lemma Clone_independent_witness :
  h_x !! 1%positive = Some m_x
  ∧ ∃ r h' h'', Clone (MapRange0 := range_asc string) (Ref 1) h_x = Ok (Ref r, h')
      ∧ contents h' (Ref r) = m_x
      ∧ for_each [Put "x" 0%Z; Del "x"] (mutate (Ref r)) h' = Ok (tt, h'')
      ∧ contents h'' (Ref 1) = m_x.
Proof.
  split; [reflexivity|].
  destruct (Clone_independent (MapRange0 := range_asc string) h_x 1 m_x eq_refl)
    as (r & h' & Hrun & _ & Hr & _ & Hmut & _).
  destruct (Hmut [Put "x" 0%Z; Del "x"]) as (h'' & Hrun' & _ & Hl).
  exists r, h', h''. repeat split; assumption.
Defined.

Lemma Observable_Set_no_change_detection_witness :
  h_x !! 1%positive = Some m_x
  ∧ m_x !! "x" = Some 10%Z
  ∧ Observable.Set_ "x" 10%Z (State h_x (obs_at 1 [recorder; recorder]) [])
    = Ok (tt, State h_x (obs_at 1 [recorder; recorder])
                    [("x", 10%Z, 10%Z); ("x", 10%Z, 10%Z)]).
Proof.
  split; [reflexivity|]. split; [reflexivity|].
  exact (proj1 (Observable_Set_no_change_detection h_x 1 m_x [recorder; recorder] []
                  "x" 10%Z eq_refl eq_refl)).
Defined.

Lemma Observable_reads_silent_witness :
  h_xy !! 1%positive = Some m_xy
  ∧ Observable.Keys (MapRange0 := range_asc string) (State h_xy (obs_at 1 [recorder]) [])
    = Ok (["y"; "x"], State h_xy (obs_at 1 [recorder]) []).
Proof.
  split; [reflexivity|].
  etrans; [exact (proj1 (Observable_reads_silent (MapRange0 := range_asc string)
                           h_xy 1 m_xy [recorder] [] eq_refl))|].
  vm_compute. reflexivity.
Defined.

(** * More of the code *)

(** ** Loops that build a slice, search, or fold *)

Lemma append_loop {Σ A B} (π : A → B) (body : list B → A → M Σ (list B)) es :
  (∀ r e σ, body r e σ = Ok (r ++ [π e], σ)) →
  ∀ r (σ : Σ), fold_each es r body σ = Ok (r ++ (π <$> es), σ).
Proof.
  intros Hbody. induction es as [|e es IH]; intros r σ; simpl.
  { by rewrite (right_id_L [] (++)). }
  erewrite bind_ok; [|apply Hbody]. rewrite IH. by rewrite <-(assoc_L (++)).
Qed.

(** A left fold whose steps commute does not see the order of the list. *)
Lemma foldl_comm_perm {A B} (g : A → B → A) (l1 l2 : list B) :
  (∀ a x y, g (g a x) y = g (g a y) x) →
  l1 ≡ₚ l2 → ∀ a, foldl g a l1 = foldl g a l2.
Proof.
  intros Hcomm Hperm. induction Hperm as [|x l1 l2 _ IH|x y l|l1 l2 l3 _ IH1 _ IH2];
    intros a; simpl.
  - done.
  - apply IH.
  - by rewrite Hcomm.
  - by rewrite IH1.
Qed.

Section find_facts.
Context {K V : Type}.
Implicit Types (es : list (K * V)) (test : K → V → bool) (r : K * V).

Lemma find_loop_hit es test r k v :
  (k, v) ∈ es → test k v = true →
  find_loop es test r ∈ es ∧ test (find_loop es test r).1 (find_loop es test r).2 = true.
Proof.
  induction es as [|[k' v'] es IH]; intros Hin Ht; simpl.
  { by apply elem_of_nil in Hin. }
  destruct (test k' v') eqn:Ht'.
  - split; [apply list_elem_of_here | done].
  - apply elem_of_cons in Hin as [Heq|Hin]; [congruence|].
    destruct (IH Hin Ht) as [Hin' Ht'']. split; [by apply list_elem_of_further | done].
Qed.

Lemma find_loop_miss es test r :
  (∀ k v, (k, v) ∈ es → test k v = false) → find_loop es test r = r.
Proof.
  induction es as [|[k' v'] es IH]; intros Hall; simpl; [done|].
  rewrite (Hall k' v') by apply list_elem_of_here.
  apply IH. intros k v Hin. apply Hall. by apply list_elem_of_further.
Qed.
End find_facts.

Section helper_facts.
Context `{Countable K} {V : Type} `{!Zero K} `{!Zero V} `{!MapRange K}.
Implicit Types (h : gmap positive (gmap K V)) (m : mapref) (l r : positive).

Lemma contents_frame h h' m :
  (∀ l, Ref l = m → h' !! l = h !! l) → contents h' m = contents h m.
Proof. destruct m as [|l]; [done|]. intros Hfr. unfold contents. by rewrite Hfr. Qed.

(** The loop [for k, v := range es { if del(k, v) { delete(r, k) } }]. *)
Lemma guarded_delete_loop (del : K → V → bool) r es : ∀ h,
  ∃ h', for_each es (λ '(k, v), if del k v then delete_key (Ref r) k else mret tt) h
          = Ok (tt, h')
      ∧ contents h' (Ref r) = foldl (drop_if del) (contents h (Ref r)) es
      ∧ ∀ l, l ≠ r → h' !! l = h !! l.
Proof.
  induction es as [|[k v] es IH]; intros h; simpl.
  { by exists h. }
  unfold drop_if at 2; simpl. destruct (del k v).
  - destruct (IH (<[r := delete k (contents h (Ref r))]> h)) as (h' & Hrun & Hc & Hfr).
    exists h'. split; [|split].
    + erewrite bind_ok; [exact Hrun | done].
    + by rewrite Hc, contents_insert_eq.
    + intros l Hl. by rewrite Hfr, lookup_insert_ne.
  - destruct (IH h) as (h' & Hrun & Hc & Hfr). by exists h'.
Qed.

Lemma DeleteFunc_run h m (del : K → V → bool) :
  ∃ h', DeleteFunc m del h = Ok (tt, h')
      ∧ contents h' m = filter (λ e, del e.1 e.2 = false) (contents h m)
      ∧ ∀ l, Ref l ≠ m → h' !! l = h !! l.
Proof.
  unfold DeleteFunc, mbind, M_bind, entries. destruct m as [|r].
  - exists h. unfold contents. rewrite range_empty. split; [done|].
    split; [|done]. by rewrite map_filter_empty.
  - destruct (guarded_delete_loop del r (range (contents h (Ref r))) h)
      as (h' & Hrun & Hc & Hfr).
    exists h'. split; [done|]. split; [by rewrite Hc, foldl_drop_if_filter|].
    intros l Hl. apply Hfr. congruence.
Qed.

(** X1. [Keys(m)] returns, for a nil map too, without touching the heap;
    the slice has every key of [m] once and nothing else, so as many
    elements as [m] has entries. *)
Theorem Keys_exact h m :
  ∃ ks, Keys m h = Ok (ks, h)
    ∧ NoDup ks
    ∧ length ks = size (contents h m)
    ∧ ∀ k, k ∈ ks ↔ is_Some (contents h m !! k).
Proof.
  exists (range (contents h m)).*1. split; [|split; [|split]].
  - unfold Keys, mbind, M_bind, entries.
    by rewrite (append_loop fst) by (by intros r [k v] σ).
  - apply range_NoDup.
  - by rewrite length_fmap, length_range.
  - intros k. rewrite list_elem_of_fmap. split.
    + intros ([k' v] & -> & Hin). apply elem_of_range in Hin. by exists v.
    + intros [v Hv]. exists (k, v). split; [done|]. by apply elem_of_range.
Qed.

(** X2. [Values(m)] returns one element for each entry of [m], equal
    values as often as they occur: a permutation of the values of [m]. *)
Theorem Values_exact h m :
  ∃ vs, Values m h = Ok (vs, h)
    ∧ vs ≡ₚ (map_to_list (contents h m)).*2
    ∧ length vs = size (contents h m).
Proof.
  exists (range (contents h m)).*2. split; [|split].
  - unfold Values, mbind, M_bind, entries.
    by rewrite (append_loop snd) by (by intros r [k v] σ).
  - by rewrite (range_perm V (contents h m)).
  - by rewrite length_fmap, length_range.
Qed.

(** X4. [Find(m, test)] returns an entry of [m] that passes [test] if there
    is one, and the zero key and value if there is none (or [m] is nil); if
    just one entry passes, that is the one returned, whatever the order. *)
Theorem Find_found_or_zero h m (test : K → V → bool) :
  ∃ e : K * V, Find m test h = Ok (e, h)
    ∧ ((contents h m !! e.1 = Some e.2 ∧ test e.1 e.2 = true)
       ∨ (e = (zero, zero) ∧ ∀ k v, contents h m !! k = Some v → test k v = false))
    ∧ (∀ k v, contents h m !! k = Some v → test k v = true →
         (∀ k' v', contents h m !! k' = Some v' → test k' v' = true → k' = k) →
         e = (k, v)).
Proof.
  set (es := range (contents h m)).
  assert (Find m test h = Ok (find_loop es test (zero, zero), h)) as Hrun.
  { unfold Find. destruct m as [|l]; [|done]. simpl. unfold es, contents.
    by rewrite range_empty. }
  exists (find_loop es test (zero, zero)). split; [exact Hrun|].
  assert (∀ k v, contents h m !! k = Some v → test k v = true →
            contents h m !! (find_loop es test (zero, zero)).1
              = Some (find_loop es test (zero, zero)).2
            ∧ test (find_loop es test (zero, zero)).1 (find_loop es test (zero, zero)).2
              = true) as Hhit.
  { intros k v Hk Ht.
    destruct (find_loop_hit es test (zero, zero) k v) as [Hin Ht']; [|done|].
    { by apply elem_of_range. }
    split; [|done]. apply elem_of_range. by destruct (find_loop es test (zero, zero)). }
  split.
  - destruct (decide (Exists (λ e, test e.1 e.2 = true) es)) as [Hex|Hnex].
    + left. apply Exists_exists in Hex as ([k v] & Hin & Ht).
      apply (Hhit k v); [by apply elem_of_range | done].
    + right. assert (∀ k v, (k, v) ∈ es → test k v = false) as Hall.
      { intros k v Hin. destruct (test k v) eqn:Ht; [|done].
        destruct Hnex. apply Exists_exists. by exists (k, v). }
      split; [by apply find_loop_miss|].
      intros k v Hk. apply Hall. by apply elem_of_range.
  - intros k v Hk Ht Huniq. destruct (Hhit k v Hk Ht) as [Hk' Ht'].
    destruct (find_loop es test (zero, zero)) as [k' v']. simpl in *.
    assert (k' = k) as -> by (by eapply Huniq). congruence.
Qed.

(** X5. With an accumulation func whose steps commute, [Reduce(m, a, f)]
    is the same for every order of iteration: the fold over the entries of
    [m] in their canonical order; for a nil map it is [a]. *)
Theorem Reduce_order_free {A} h m (a : A) (f : A → K → V → A) :
  (∀ a k1 v1 k2 v2, f (f a k1 v1) k2 v2 = f (f a k2 v2) k1 v1) →
  Reduce m a f h = Ok (foldl (λ a e, f a e.1 e.2) a (map_to_list (contents h m)), h).
Proof.
  intros Hcomm.
  assert (Reduce m a f h
          = Ok (foldl (λ a e, f a e.1 e.2) a (range (contents h m)), h)) as ->.
  { unfold Reduce. destruct m as [|l]; simpl.
    - unfold contents. by rewrite range_empty.
    - unfold mbind, M_bind, entries.
      rewrite (fold_each_ext _ (λ a e, mret (f a e.1 e.2))) by (by intros b [k v] σ).
      apply fold_each_pure. }
  do 2 f_equal. apply foldl_comm_perm; [|apply range_perm].
  intros a' [k1 v1] [k2 v2]. apply Hcomm.
Qed.

(** X6. [DeleteFunc(m, del)] returns for every map, a nil one too, and
    leaves in [m] exactly the entries for which [del] is false; no other map
    is touched. *)
Theorem DeleteFunc_exact h m (del : K → V → bool) :
  ∃ h', DeleteFunc m del h = Ok (tt, h')
    ∧ (∀ k v, contents h' m !! k = Some v ↔ contents h m !! k = Some v ∧ del k v = false)
    ∧ (∀ l, Ref l ≠ m → h' !! l = h !! l)
    ∧ (m = Nil → h' = h).
Proof.
  destruct (DeleteFunc_run h m del) as (h' & Hrun & Hc & Hfr).
  exists h'. split; [done|]. split; [|split; [done|]].
  - intros k v. rewrite Hc. apply (map_lookup_filter_Some (λ e, del e.1 e.2 = false)).
  - intros ->. unfold DeleteFunc, mbind, M_bind, entries in Hrun.
    unfold contents in Hrun. rewrite range_empty in Hrun.
    cbv [for_each mret M_ret] in Hrun. by injection Hrun.
Qed.

(** X7. [r := Filter(m, p)] followed by [DeleteFunc(m, p)] splits [m] in
    two: [r] has the entries that pass, [m] keeps those that do not, no key
    is in both, and together they are what [m] was. *)
Theorem Filter_DeleteFunc_partition h l (m0 : gmap K V) (p : K → V → bool) :
  h !! l = Some m0 →
  ∃ r h', (r ← Filter (Ref l) p; DeleteFunc (Ref l) p ;; mret r) h = Ok (Ref r, h')
    ∧ r ≠ l
    ∧ contents h' (Ref r) = filter (λ e, p e.1 e.2 = true) m0
    ∧ contents h' (Ref l) = filter (λ e, p e.1 e.2 = false) m0
    ∧ contents h' (Ref r) ##ₘ contents h' (Ref l)
    ∧ contents h' (Ref r) ∪ contents h' (Ref l) = m0.
Proof.
  intros Hl. destruct (Filter_run h l m0 p Hl) as (h1 & Hrun1 & Hc1 & Hfr1).
  pose proof (make_fresh h) as Hr. set (r := fresh (dom h)) in *.
  assert (r ≠ l) as Hrl by (intros ->; congruence).
  assert (contents h1 (Ref l) = m0) as Hl1.
  { apply contents_live. by rewrite Hfr1. }
  destruct (DeleteFunc_run h1 (Ref l) p) as (h' & Hrun2 & Hc2 & Hfr2).
  assert (contents h' (Ref r) = filter (λ e, p e.1 e.2 = true) m0) as Hcr.
  { rewrite <-Hc1. unfold contents. rewrite Hfr2; [done|congruence]. }
  rewrite Hl1 in Hc2.
  exists r, h'. split; [|split; [done|split; [done|split; [done|split]]]].
  - erewrite bind_ok; [|exact Hrun1]. erewrite bind_ok; [|exact Hrun2]. done.
  - rewrite Hcr, Hc2. apply map_disjoint_spec. intros k v1 v2.
    intros [Hk1 Ht]%map_lookup_filter_Some [Hk2 Hf]%map_lookup_filter_Some.
    simpl in *. rewrite Hk1 in Hk2. injection Hk2 as <-. congruence.
  - rewrite Hcr, Hc2. apply map_eq. intros k. rewrite lookup_union.
    destruct (m0 !! k) as [v|] eqn:Hk.
    + destruct (p k v) eqn:Hp.
      * rewrite (proj2 (map_lookup_filter_Some (λ e, p e.1 e.2 = true) m0 k v)) by done.
        by destruct (filter _ m0 !! k).
      * rewrite (proj2 (map_lookup_filter_Some (λ e, p e.1 e.2 = false) m0 k v)) by done.
        rewrite (proj2 (map_lookup_filter_None (λ e, p e.1 e.2 = true) m0 k)); [done|].
        right. intros v' Hv'. simpl. rewrite Hk in Hv'. injection Hv' as <-. by rewrite Hp.
    + rewrite !(proj2 (map_lookup_filter_None _ m0 k)) by (by left). done.
Qed.

(** X8. Two copies into the same map pile up, the later on top: after
    [Copy(dst, src1); Copy(dst, src2)] a key has the value of [src2] if it is
    there, else that of [src1], else the one [dst] had. *)
Theorem Copy_later_wins h (d : positive) (src1 src2 : mapref) :
  src2 ≠ Ref d →
  ∃ h', (Copy (Ref d) src1 ;; Copy (Ref d) src2) h = Ok (tt, h')
    ∧ contents h' (Ref d)
      = contents h src2 ∪ (contents h src1 ∪ contents h (Ref d))
    ∧ ∀ l, l ≠ d → h' !! l = h !! l.
Proof.
  intros Hne.
  destruct (store_loop d (range (contents h src1)) h) as (h1 & Hrun1 & Hc1 & Hfr1).
  assert (contents h1 src2 = contents h src2) as Hs2.
  { apply contents_frame. intros l <-. apply Hfr1. congruence. }
  destruct (store_loop d (range (contents h src2)) h1) as (h2 & Hrun2 & Hc2 & Hfr2).
  exists h2. split; [|split].
  - erewrite bind_ok; last first.
    { unfold Copy, mbind, M_bind, entries. exact Hrun1. }
    unfold Copy, mbind, M_bind, entries. by rewrite Hs2.
  - by rewrite Hc2, foldl_put_range, Hc1, foldl_put_range.
  - intros l Hl. by rewrite Hfr2, Hfr1.
Qed.
End helper_facts.

(** ** Each *)

Section each_facts.
Context `{Countable K} {V W R : Type} `{!MapRange K}.

(** X3. [Each(m, f)] calls [f] once for each entry of [m], in some order,
    and does nothing else: heap and receiver are as before; on a nil map it
    does not call [f] at all; and if the calls of [f] commute, what they
    leave does not depend on the order. *)
Theorem Each_once (m : mapref) (f : K → V → W → W) (st : state K V W R) :
  ∃ es, es ≡ₚ map_to_list (contents (heap st) m)
    ∧ Each m f st
      = Ok (tt, State (heap st) (self st) (foldl (λ w e, f e.1 e.2 w) (world st) es))
    ∧ (m = Nil → es = [])
    ∧ ((∀ w k1 v1 k2 v2, f k2 v2 (f k1 v1 w) = f k1 v1 (f k2 v2 w)) →
       Each m f st
       = Ok (tt, State (heap st) (self st)
                       (foldl (λ w e, f e.1 e.2 w) (world st)
                              (map_to_list (contents (heap st) m))))).
Proof.
  destruct st as [h s w]. exists (range (contents h m)).
  assert (Each m f (State h s w)
          = Ok (tt, State h s (foldl (λ w e, f e.1 e.2 w) w (range (contents h m)))))
    as Hrun.
  { unfold Each. destruct m as [|l]; simpl.
    + unfold contents. by rewrite range_empty.
    + erewrite bind_ok; [|reflexivity]. simpl.
      rewrite (for_each_ext _ (λ e, call (f e.1 e.2))) by (by intros [k v] σ).
      apply (for_each_call (λ e, f e.1 e.2)). }
  split; [apply range_perm|]. split; [exact Hrun|]. split.
  - intros ->. unfold contents. apply range_empty.
  - intros Hcomm. rewrite Hrun. simpl. do 3 f_equal.
    apply foldl_comm_perm; [|apply range_perm].
    intros w' [k1 v1] [k2 v2]. apply Hcomm.
Qed.
End each_facts.

(** ** Set, continued *)

Section set_more.
Context `{Countable T} `{!Zero T} `{!MapRange T}.
Implicit Types (h : gmap positive (gmap T unit)) (s : mapref) (t : T).

Lemma delete_keys_loop s (items : list T) : ∀ h,
  ∃ h', for_each items (λ t, delete_key s t) h = Ok (tt, h')
      ∧ contents h' s = foldl (λ m t, delete t m) (contents h s) items
      ∧ (∀ l, Ref l ≠ s → h' !! l = h !! l)
      ∧ (s = Nil → h' = h).
Proof.
  induction items as [|t items IH]; intros h; simpl.
  { by exists h. }
  destruct s as [|r].
  - destruct (IH h) as (h' & Hrun & Hc & Hfr & Hnil). by exists h'.
  - destruct (IH (<[r := delete t (contents h (Ref r))]> h)) as (h' & Hrun & Hc & Hfr & _).
    exists h'. split; [|split; [|split]].
    + erewrite bind_ok; [exact Hrun | done].
    + by rewrite Hc, contents_insert_eq.
    + intros l Hl. rewrite Hfr by done. apply lookup_insert_ne. congruence.
    + done.
Qed.

Lemma add_loop r (items : list T) : ∀ h,
  ∃ h', for_each items (λ t, GoSet.Add (Ref r) t) h = Ok (tt, h')
      ∧ contents h' (Ref r) = foldl (λ m t, <[t := tt]> m) (contents h (Ref r)) items.
Proof.
  induction items as [|t items IH]; intros h; simpl.
  { by exists h. }
  destruct (IH (<[r := <[t := tt]> (contents h (Ref r))]> h)) as (h' & Hrun & Hc).
  exists h'. split.
  - erewrite bind_ok; [exact Hrun | done].
  - by rewrite Hc, contents_insert_eq.
Qed.

Lemma foldl_add_lookup (items : list T) : ∀ (m : gmap T unit) t,
  is_Some (foldl (λ m t, <[t := tt]> m) m items !! t) ↔ t ∈ items ∨ is_Some (m !! t).
Proof.
  induction items as [|t' items IH]; intros m t; simpl.
  { rewrite elem_of_nil. tauto. }
  rewrite IH, elem_of_cons, lookup_insert_is_Some.
  destruct (decide (t' = t)) as [->|Hne]; [tauto|].
  split; [intros [?|[?|[_ ?]]] | intros [[?|?]|?]]; try tauto; congruence.
Qed.

Lemma Slice_run h s :
  GoSet.Slice s h = Ok ((range (contents h s)).*1, h).
Proof.
  unfold GoSet.Slice. do 2 (erewrite bind_ok; [|reflexivity]).
  erewrite bind_ok; last first.
  { apply (snapshot_loop fst). by intros i sl [v u] σ. }
  done.
Qed.

(** X9. [Slice()] never indexes out of range and returns, for a nil set
    too, every member once and nothing else. *)
Theorem Slice_exact h s :
  ∃ ts, GoSet.Slice s h = Ok (ts, h)
    ∧ NoDup ts
    ∧ length ts = size (contents h s)
    ∧ ∀ t, t ∈ ts ↔ GoSet.Has s t h = Ok (true, h).
Proof.
  exists (range (contents h s)).*1. split; [apply Slice_run|]. split; [|split].
  - apply range_NoDup.
  - by rewrite length_fmap, length_range.
  - intros t. unfold GoSet.Has, index_ok. rewrite list_elem_of_fmap. split.
    + intros ([t' u] & -> & Hin). apply elem_of_range in Hin.
      do 2 f_equal. apply bool_decide_eq_true. by exists u.
    + intros Heq. injection Heq as Hd. apply bool_decide_eq_true in Hd as [u Hu].
      exists (t, u). split; [done|]. by apply elem_of_range.
Qed.

(** X10. [Delete(items...)] returns for every set, a nil one too; after
    it none of the items is a member, and every other element is a member
    exactly if it was; no other set is touched. *)
Theorem Set_Delete_exact h s (items : list T) :
  ∃ h', GoSet.Delete s items h = Ok (tt, h')
    ∧ (∀ t, GoSet.Has s t h'
         = Ok (if decide (t ∈ items) then false
               else bool_decide (is_Some (contents h s !! t)), h'))
    ∧ (∀ l, Ref l ≠ s → h' !! l = h !! l)
    ∧ (s = Nil → h' = h).
Proof.
  destruct (delete_keys_loop s items h) as (h' & Hrun & Hc & Hfr & Hnil).
  exists h'. split; [done|]. split; [|done].
  intros t. unfold GoSet.Has, index_ok. rewrite Hc, foldl_delete_lookup.
  by destruct (decide (t ∈ items)).
Qed.

(** X11. A set made by [NewSet] and filled by [Add] from a list has each
    element of the list once: [Slice()] then returns the elements of the
    list without duplicates. *)
Theorem Set_of_list h (items : list T) :
  ∃ ts h', (s ← GoSet.NewSet; for_each items (λ t, GoSet.Add s t) ;; GoSet.Slice s) h
           = Ok (ts, h')
    ∧ NoDup ts
    ∧ (∀ t, t ∈ ts ↔ t ∈ items)
    ∧ length ts ≤ length items.
Proof.
  set (r := fresh (dom h)).
  destruct (add_loop r items (<[r := ∅]> h)) as (h' & Hrun & Hc).
  rewrite contents_insert_eq in Hc.
  exists (range (contents h' (Ref r))).*1, h'.
  assert (∀ t, t ∈ (range (contents h' (Ref r))).*1 ↔ t ∈ items) as Hmem.
  { intros t. rewrite list_elem_of_fmap. split.
    - intros ([t' u] & -> & Hin). apply elem_of_range in Hin.
      rewrite Hc in Hin. assert (is_Some (foldl (λ m t, <[t := tt]> m) ∅ items !! t'))
        as [Hi|[? Hi]]%foldl_add_lookup by eauto; [done|]. by rewrite lookup_empty in Hi.
    - intros Hin. assert (is_Some (contents h' (Ref r) !! t)) as [u Hu].
      { rewrite Hc. apply foldl_add_lookup. by left. }
      exists (t, u). split; [done|]. by apply elem_of_range. }
  split; [|split; [apply range_NoDup | split; [exact Hmem|]]].
  - erewrite bind_ok; [|reflexivity]. fold r.
    erewrite bind_ok; [|exact Hrun]. apply Slice_run.
  - apply submseteq_length, NoDup_submseteq; [apply range_NoDup|].
    intros t. apply Hmem.
Qed.
End set_more.

Section set_each.
Context `{Countable T} `{!MapRange T} {W R : Type}.

(** X12. [Set.Each(f)] calls [f] once for each member, in some order, and
    changes nothing else. *)
Theorem Set_Each_once (s : mapref) (f : T → W → W) (st : state T unit W R) :
  ∃ ts, NoDup ts
    ∧ (∀ t, t ∈ ts ↔ is_Some (contents (heap st) s !! t))
    ∧ GoSet.Each s f st
      = Ok (tt, State (heap st) (self st) (foldl (λ w t, f t w) (world st) ts)).
Proof.
  destruct st as [h r w]. exists (range (contents h s)).*1.
  split; [apply range_NoDup|]. split.
  - intros t. rewrite list_elem_of_fmap. split.
    + intros ([t' u] & -> & Hin). apply elem_of_range in Hin. by exists u.
    + intros [u Hu]. exists (t, u). split; [done|]. by apply elem_of_range.
  - unfold GoSet.Each. erewrite bind_ok; [|reflexivity]. simpl.
    rewrite (for_each_ext _ (λ e, call (f e.1))) by (by intros [v u] σ).
    rewrite (for_each_call (λ e : T * unit, f e.1)). do 3 f_equal.
    generalize (range (contents h s)). intros es. revert w.
    induction es as [|e es IH]; intros w; [done|]. apply IH.
Qed.
End set_each.

(** ** Sync, continued *)

Section sync_more.
Context `{Countable K} {V W : Type} `{!Zero K} `{!Zero V} `{!MapRange K}.
Implicit Types (h : gmap positive (gmap K V)) (m : gmap K V) (l r : positive) (w : W).

Lemma store_loop_cell r (es : list (K * V)) : ∀ h m,
  h !! r = Some m →
  for_each es (λ '(k, v), store (Ref r) k v) h
  = Ok (tt, <[r := foldl (put_if (λ _ _, true)) m es]> h).
Proof.
  induction es as [|[k v] es IH]; intros h m Hr; simpl.
  { by rewrite insert_id. }
  erewrite bind_ok; last first.
  { unfold store. rewrite (contents_live h r m Hr). reflexivity. }
  erewrite IH; [|apply lookup_insert_eq]. by rewrite insert_insert_eq.
Qed.

Lemma sync_set_loop l (kvs : list (K * V)) : ∀ h m (s : SyncT) w,
  h !! l = Some m → data s = Ref l →
  for_each kvs (λ '(k, v), Sync.set k v) (State h s w)
  = Ok (tt, State (<[l := foldl (λ m e, <[e.1 := e.2]> m) m kvs]> h) s w).
Proof.
  induction kvs as [|[k v] kvs IH]; intros h m s w Hl Hd; simpl.
  { by rewrite insert_id. }
  erewrite bind_ok; last first.
  { unfold Sync.set, mbind, M_bind, field, on_heap, store. simpl. rewrite Hd.
    rewrite (contents_live h l m Hl). reflexivity. }
  erewrite IH; [|apply lookup_insert_eq|done]. by rewrite insert_insert_eq.
Qed.

Lemma sync_Set_loop l (kvs : list (K * V)) : ∀ h m w,
  h !! l = Some m →
  for_each kvs (λ '(k, v), Sync.Set_ k v) (State h (sync_at l) w)
  = Ok (tt, State (<[l := foldl (λ m e, <[e.1 := e.2]> m) m kvs]> h) (sync_at l) w).
Proof.
  induction kvs as [|[k v] kvs IH]; intros h m w Hl; simpl.
  { by rewrite insert_id. }
  erewrite bind_ok; [|by apply Sync_Set_run].
  erewrite IH; [|apply lookup_insert_eq]. by rewrite insert_insert_eq.
Qed.

Lemma sync_delete_func_loop l (del : K → V → bool) es : ∀ h m (s : SyncT) w,
  h !! l = Some m → data s = Ref l →
  for_each es (λ '(k, v),
    if del k v then d' ← field data; on_heap (delete_key d' k) else mret tt)
    (State h s w)
  = Ok (tt, State (<[l := foldl (drop_if del) m es]> h) s w).
Proof.
  induction es as [|[k v] es IH]; intros h m s w Hl Hd; simpl.
  { by rewrite insert_id. }
  unfold drop_if at 2; simpl. destruct (del k v).
  - erewrite bind_ok; last first.
    { unfold mbind, M_bind, field, on_heap, delete_key. simpl. rewrite Hd.
      rewrite (contents_live h l m Hl). reflexivity. }
    erewrite IH; [|apply lookup_insert_eq|done]. by rewrite insert_insert_eq.
  - erewrite bind_ok; [|reflexivity]. by apply IH.
Qed.

Lemma nil_delete_loop (keys : list K) (s : SyncT) h w :
  data s = Nil →
  for_each keys (λ key, d ← field data; on_heap (delete_key d key)) (State h s w)
  = Ok (tt, State h s w).
Proof.
  intros Hd. induction keys as [|key keys IH]; simpl; [done|].
  erewrite bind_ok; [exact IH|].
  unfold mbind, M_bind, field, on_heap, delete_key. simpl. by rewrite Hd.
Qed.

(** X13. [Clone()] returns a new Sync with a free lock whose map was not
    there before and holds the entries of the receiver; the receiver is as
    before, lock released; a [Set] on the clone leaves the data of the
    receiver alone; on a nil receiver [Clone()] is nil. *)
Theorem Sync_Clone_independent h l m w :
  h !! l = Some m →
  ∃ r h', Sync.Clone Self (State h (sync_at l) w)
          = Ok (Some (sync_at r), State h' (sync_at l) w)
    ∧ h !! r = None
    ∧ h' !! r = Some m
    ∧ h' !! l = Some m
    ∧ (∀ l', l' ≠ r → h' !! l' = h !! l')
    ∧ (∀ key val, ∃ h'', Sync.Set_ key val (State h' (sync_at r) w)
                         = Ok (tt, State h'' (sync_at r) w)
         ∧ h'' !! r = Some (<[key := val]> m)
         ∧ h'' !! l = Some m)
    ∧ Sync.Clone NilPtr (State h (sync_at l) w) = Ok (None, State h (sync_at l) w).
Proof.
  intros Hl. pose proof (make_fresh h) as Hr. set (r := fresh (dom h)) in *.
  assert (l ≠ r) as Hlr by (intros ->; congruence).
  exists r, (<[r := m]> h).
  split; [|split; [done|split; [apply lookup_insert_eq|split; [|split; [|split]]]]].
  - unfold Sync.Clone.
    do 4 (erewrite bind_ok; [|reflexivity]). simpl. fold r.
    rewrite contents_insert_ne, (contents_live h l m Hl) by done.
    erewrite bind_ok; last first.
    { rewrite (for_each_ext _ (λ e, on_heap (let '(k, v) := e in store (Ref r) k v)))
        by (by intros [k v] σ).
      rewrite on_heap_for_each. unfold on_heap. simpl.
      rewrite (store_loop_cell r (range m) _ ∅) by apply lookup_insert_eq.
      reflexivity. }
    rewrite insert_insert_eq, foldl_put_range, (right_id_L ∅ (∪)). reflexivity.
  - by rewrite lookup_insert_ne.
  - intros l' Hl'. by rewrite lookup_insert_ne.
  - intros key val. eexists. split; [apply Sync_Set_run, lookup_insert_eq|].
    rewrite insert_insert_eq. split; [apply lookup_insert_eq|].
    by rewrite lookup_insert_ne.
  - done.
Qed.

(** X14. [Sync.DeleteFunc(del)] returns with the lock released and leaves
    exactly the entries for which [del] is false. *)
Theorem Sync_DeleteFunc_exact h l m w (del : K → V → bool) :
  h !! l = Some m →
  ∃ m', Sync.DeleteFunc del (State h (sync_at l) w)
        = Ok (tt, State (<[l := m']> h) (sync_at l) w)
    ∧ ∀ k v, m' !! k = Some v ↔ m !! k = Some v ∧ del k v = false.
Proof.
  intros Hl. exists (filter (λ e, del e.1 e.2 = false) m). split.
  - unfold Sync.DeleteFunc.
    do 3 (erewrite bind_ok; [|reflexivity]). simpl. rewrite (contents_live h l m Hl).
    erewrite bind_ok; [|by apply (sync_delete_func_loop l del (range m) h m)].
    by rewrite foldl_drop_if_filter.
  - intros k v. apply (map_lookup_filter_Some (λ e, del e.1 e.2 = false)).
Qed.

(** X15. Writes made through the setter inside one [Lock] leave what the
    same writes made by [Set], one lock each, leave: the later write to a
    key wins. *)
Theorem Sync_Lock_batch h l m w (kvs : list (K * V)) :
  h !! l = Some m →
  let st' := State (<[l := foldl (λ m e, <[e.1 := e.2]> m) m kvs]> h) (sync_at l) w in
  Sync.Lock (λ set, for_each kvs (λ '(k, v), set k v)) (State h (sync_at l) w)
    = Ok (tt, st')
  ∧ for_each kvs (λ '(k, v), Sync.Set_ k v) (State h (sync_at l) w) = Ok (tt, st')
  ∧ ∀ k, Sync.Get k st'
         = Ok (default (default zero (m !! k)) (list_to_map (M := gmap K V) (reverse kvs) !! k),
               st').
Proof.
  intros Hl st'. split; [|split].
  - unfold Sync.Lock. erewrite bind_ok; [|reflexivity].
    erewrite bind_ok; [|by apply (sync_set_loop l kvs h m)]. done.
  - by apply sync_Set_loop.
  - intros k. unfold st'. erewrite Sync_Get_run; [|apply lookup_insert_eq].
    do 2 f_equal. clear Hl st'. revert m.
    induction kvs as [|[k' v'] kvs IH]; intros m; simpl; [done|].
    rewrite IH, reverse_cons, list_to_map_app. simpl.
    rewrite lookup_union, (lookup_insert (∅ : gmap K V)), (lookup_insert m), lookup_empty.
    destruct (list_to_map (reverse kvs) !! k) as [v|], (decide (k' = k)); done.
Qed.

(** X16. The lock is not reentrant. Inside the callback of [Lock] a call
    of [Set], [Delete] or [Keys] on the same Sync never returns, while
    [Get], which takes no lock, and the setter do their work (a
    read-modify-write); inside the callback of [RLock] a [Set] or [Delete]
    never returns, while [Get] does. *)
Theorem Sync_Lock_not_reentrant h l m w key val (keys : list K) (g : V → V)
    (g' : V → W → W) :
  h !! l = Some m →
  let st := State h (sync_at l) w in
  Sync.Lock (λ _, Sync.Set_ key val) st = Fault Deadlock
  ∧ Sync.Lock (λ _, Sync.Delete keys) st = Fault Deadlock
  ∧ Sync.Lock (λ _, Sync.Keys ;; mret tt) st = Fault Deadlock
  ∧ Sync.Lock (λ set, v ← Sync.Get key; set key (g v)) st
    = Ok (tt, State (<[l := <[key := g (default zero (m !! key))]> m]> h) (sync_at l) w)
  ∧ Sync.RLock (Sync.Set_ key val) st = Fault Deadlock
  ∧ Sync.RLock (Sync.Delete keys) st = Fault Deadlock
  ∧ Sync.RLock (v ← Sync.Get key; call (g' v)) st
    = Ok (tt, State h (sync_at l) (g' (default zero (m !! key)) w)).
Proof.
  intros Hl st. repeat split; try reflexivity.
  - unfold Sync.Lock. erewrite bind_ok; [|reflexivity].
    erewrite bind_ok; last first.
    { unfold Sync.Get, Sync.set, mbind, M_bind, field, on_heap, index, store. simpl.
      rewrite (contents_live h l m Hl). reflexivity. }
    done.
  - unfold Sync.RLock, Sync.Get, mbind, M_bind, field, on_heap, index, call. simpl.
    by rewrite (contents_live h l m Hl).
Qed.

(** X17. A Sync that no constructor made has a nil map: [Get] gives the
    zero value, [Size] 0, [Keys] and [Values] an empty slice, and [Delete]
    does nothing, but [Set] and the setter of [Lock] panic on the write.
    Its [Clone()] has a map of its own and takes a [Set]. *)
Theorem Sync_zero_value h w key val (keys : list K) :
  let st := State h sync_zero w in
  let r := fresh (dom h) in
  Sync.Get key st = Ok (zero, st)
  ∧ Sync.Size st = Ok (0%Z, st)
  ∧ Sync.Keys st = Ok ([], st)
  ∧ Sync.Values st = Ok ([], st)
  ∧ Sync.Delete keys st = Ok (tt, st)
  ∧ Sync.Set_ key val st = Fault NilMapWrite
  ∧ Sync.Lock (λ set, set key val) st = Fault NilMapWrite
  ∧ Sync.Clone Self st = Ok (Some (sync_at r), State (<[r := ∅]> h) sync_zero w)
  ∧ Sync.Set_ key val (State (<[r := ∅]> h) (sync_at r) w)
    = Ok (tt, State (<[r := {[key := val]}]> h) (sync_at r) w).
Proof.
  intros st r.
  assert (range (∅ : gmap K V) = []) as Hnil by apply range_empty.
  repeat split; try reflexivity.
  - unfold Sync.Keys. do 4 (erewrite bind_ok; [|reflexivity]). simpl.
    unfold contents. by rewrite Hnil.
  - unfold Sync.Values. do 4 (erewrite bind_ok; [|reflexivity]). simpl.
    unfold contents. by rewrite Hnil.
  - unfold Sync.Delete. erewrite bind_ok; [|reflexivity].
    erewrite bind_ok; [|by apply nil_delete_loop]. done.
  - unfold Sync.Clone. do 4 (erewrite bind_ok; [|reflexivity]). simpl.
    unfold contents. by rewrite Hnil.
  - erewrite Sync_Set_run; [|apply lookup_insert_eq]. by rewrite insert_insert_eq.
Qed.

(** X18. What is written is read back: after [Set(key, val)], [Get] gives
    [val] at [key] and what it gave before at every other key, and [Size]
    has grown by one exactly if [key] was absent; after [Delete(key)],
    [Get(key)] gives the zero value and [Size] has gone down by one exactly
    if [key] was present. *)
Theorem Sync_Set_Get_Delete h l m w key val key' :
  h !! l = Some m →
  let st := State h (sync_at l) w in
  let st1 := State (<[l := <[key := val]> m]> h) (sync_at l) w in
  let st2 := State (<[l := delete key m]> h) (sync_at l) w in
  (Sync.Set_ key val ;; Sync.Get key') st
    = Ok (if decide (key = key') then val else default zero (m !! key'), st1)
  ∧ (Sync.Set_ key val ;; Sync.Size) st
    = Ok (Z.of_nat (if m !! key is Some _ then size m else S (size m)), st1)
  ∧ (Sync.Delete [key] ;; Sync.Get key') st
    = Ok (if decide (key = key') then zero else default zero (m !! key'), st2)
  ∧ (Sync.Delete [key] ;; Sync.Size) st
    = Ok (Z.of_nat (if m !! key is Some _ then size m - 1 else size m), st2).
Proof.
  intros Hl st st1 st2. repeat split.
  - erewrite bind_ok; [|by apply Sync_Set_run].
    erewrite Sync_Get_run; [|apply lookup_insert_eq].
    rewrite lookup_insert. by destruct (decide (key = key')).
  - erewrite bind_ok; [|by apply Sync_Set_run].
    erewrite Sync_Size_run; [|apply lookup_insert_eq].
    destruct (m !! key) as [v|] eqn:Hk.
    + by rewrite map_size_insert_Some.
    + by rewrite map_size_insert_None.
  - erewrite bind_ok; [|by apply Sync_Delete_run].
    erewrite Sync_Get_run; [|apply lookup_insert_eq]. simpl.
    rewrite lookup_delete. by destruct (decide (key = key')).
  - erewrite bind_ok; [|by apply Sync_Delete_run].
    erewrite Sync_Size_run; [|apply lookup_insert_eq]. simpl.
    destruct (m !! key) as [v|] eqn:Hk.
    + rewrite (map_size_delete_Some key m) by eauto. do 3 f_equal. lia.
    + by rewrite map_size_delete_None.
Qed.
End sync_more.

(** ** Observable, continued *)

Section observable_more.
Context `{Countable K} {V W : Type} `{!Zero K} `{!Zero V} `{!MapRange K}.
Implicit Types (h : gmap positive (gmap K V)) (m : gmap K V) (l : positive) (w : W).
Implicit Types (os : list (Observer K V W)).

Lemma observable_set_loop l os (kvs : list (K * V)) : ∀ h m w,
  h !! l = Some m →
  for_each kvs (λ '(k, v), Observable.set k v) (State h (obs_locked l os) w)
  = Ok (tt, State (<[l := (set_notified os kvs (m, w)).1]> h) (obs_locked l os)
                  (set_notified os kvs (m, w)).2).
Proof.
  induction kvs as [|[k v] kvs IH]; intros h m w Hl; simpl.
  { by rewrite insert_id. }
  erewrite bind_ok; [|by apply (set_run _ _ l m)].
  erewrite IH; [|apply lookup_insert_eq]. by rewrite insert_insert_eq.
Qed.

Lemma observable_Set_loop l os (kvs : list (K * V)) : ∀ h m w,
  h !! l = Some m →
  for_each kvs (λ '(k, v), Observable.Set_ k v) (State h (obs_at l os) w)
  = Ok (tt, State (<[l := (set_notified os kvs (m, w)).1]> h) (obs_at l os)
                  (set_notified os kvs (m, w)).2).
Proof.
  induction kvs as [|[k v] kvs IH]; intros h m w Hl; simpl.
  { by rewrite insert_id. }
  erewrite bind_ok; [|by apply Observable_Set_run].
  erewrite IH; [|apply lookup_insert_eq]. by rewrite insert_insert_eq.
Qed.

(** X19. Successive [Set]s of one key hand the values on: each
    notification has as old value the new value of the one before (the
    first, what the key held or zero), and [Get] ends at the last value. *)
Theorem Observable_Set_chain h l m os w key (vs : list V) :
  h !! l = Some m →
  let old0 := default zero (m !! key) in
  ∃ st', for_each vs (λ v, Observable.Set_ key v) (State h (obs_at l os) w)
         = Ok (tt, st')
    ∧ world st'
      = foldl (λ w p, notified os key p.1 p.2 w) w (zip vs (old0 :: vs))
    ∧ self st' = obs_at l os
    ∧ Observable.Get key st' = Ok (default old0 (last vs), st').
Proof.
  intros Hl. simpl. revert h m w Hl.
  induction vs as [|v vs IH]; intros h m w Hl.
  { eexists. split; [reflexivity|]. split; [done|]. split; [done|].
    simpl. by apply Observable_Get_run. }
  destruct (IH (<[l := <[key := v]> m]> h) (<[key := v]> m)
              (notified os key v (default zero (m !! key)) w))
    as (st' & Hrun & Hw & Hs & Hget); [apply lookup_insert_eq|].
  rewrite lookup_insert_eq in Hw, Hget. simpl in Hw, Hget.
  exists st'. split; [|split; [|split]].
  - simpl. erewrite bind_ok; [|by apply Observable_Set_run]. exact Hrun.
  - exact Hw.
  - exact Hs.
  - rewrite Hget, (last_cons v vs). by destruct (last vs).
Qed.

(** X20. Writes made through the setter inside one [Lock] notify and store
    as the same writes made by [Set], one lock each: the same notifications
    in the same order and the same entries at the end. *)
Theorem Observable_Lock_batch h l m os w (kvs : list (K * V)) :
  h !! l = Some m →
  let st' := State (<[l := (set_notified os kvs (m, w)).1]> h) (obs_at l os)
                   (set_notified os kvs (m, w)).2 in
  Observable.Lock (λ set, for_each kvs (λ '(k, v), set k v)) (State h (obs_at l os) w)
    = Ok (tt, st')
  ∧ for_each kvs (λ '(k, v), Observable.Set_ k v) (State h (obs_at l os) w) = Ok (tt, st')
  ∧ (∀ k v kvs', set_notified os ((k, v) :: kvs') (m, w)
       = set_notified os kvs'
           (<[k := v]> m, notified os k v (default zero (m !! k)) w)).
Proof.
  intros Hl st'. split; [|split; [|done]].
  - unfold Observable.Lock. erewrite bind_ok; [|apply lock_run].
    erewrite bind_ok; [|by apply observable_set_loop]. apply unlock_run.
  - by apply observable_Set_loop.
Qed.

(** X21. The lock of an Observable is not reentrant either: inside the
    callback of [Lock] a [Set], [Delete] or [Keys] of the same Observable
    never returns; inside [RLock] a read of the embedded Sync passes its
    value on while nothing else changes, and a [Set] there never returns. *)
Theorem Observable_Lock_not_reentrant h l m os w key val (keys : list K) (g : V → W → W) :
  h !! l = Some m →
  let st := State h (obs_at l os) w in
  Observable.Lock (λ _, Observable.Set_ key val) st = Fault Deadlock
  ∧ Observable.Lock (λ _, Observable.Delete keys) st = Fault Deadlock
  ∧ Observable.Lock (λ _, Observable.Keys ;; mret tt) st = Fault Deadlock
  ∧ Observable.RLock (Sync.Set_ key val) st = Fault Deadlock
  ∧ Observable.RLock (v ← Sync.Get key; call (g v)) st
    = Ok (tt, State h (obs_at l os) (g (default zero (m !! key)) w)).
Proof.
  intros Hl st. repeat split; try reflexivity.
  unfold Observable.RLock, Observable.on_sync, on_field, Sync.RLock, Sync.Get,
    mbind, M_bind, field, on_heap, index, call. simpl.
  by rewrite (contents_live h l m Hl).
Qed.

(** X22. [Set(key, val)] followed by [Delete(key)] announces
    [(key, val, old)] and then [(key, zero, val)], and leaves the key
    absent: the other entries are as they were before the [Set]. *)
Theorem Observable_Set_then_Delete h l m os w key val :
  h !! l = Some m →
  (Observable.Set_ key val ;; Observable.Delete [key]) (State h (obs_at l os) w)
  = Ok (tt, State (<[l := delete key m]> h) (obs_at l os)
                  (notified os key zero val
                     (notified os key val (default zero (m !! key)) w))).
Proof.
  intros Hl. erewrite bind_ok; [|by apply Observable_Set_run].
  erewrite Observable_Delete_run; [|apply lookup_insert_eq]. simpl.
  by rewrite lookup_insert_eq, insert_insert_eq, delete_insert_eq.
Qed.

(** X23. With each observer made to log its invocations, one [Set] adds to
    the log one line for each observer, in the order of registration, all
    with the same [(key, val, old)], and what the observers do to the world
    is what they do unlogged. *)
Theorem Observable_Set_call_log h l m os w log key val :
  h !! l = Some m →
  Observable.Set_ key val (State h (obs_at l (imap logging os)) (w, log))
  = Ok (tt, State (<[l := <[key := val]> m]> h) (obs_at l (imap logging os))
                  (notified os key val (default zero (m !! key)) w,
                   log ++ imap (λ i _, (i, key, val, default zero (m !! key))) os)).
Proof.
  intros Hl. rewrite (Observable_Set_run h l m) by done. do 3 f_equal.
  apply (notified_log os key val (default zero (m !! key)) 0 w log).
Qed.

(** X24. Whatever calls a program makes on an Observable made by
    [NewObservable], each of them returns: none panics or waits for a lock,
    and afterwards the lock is free and the data map is there. *)
Theorem Observable_never_stuck h w (ops : list (op K V W)) :
  ∃ o h0 st', Observable.NewObservable h = Ok (o, h0)
    ∧ for_each ops run_op (State h0 o w) = Ok (tt, st')
    ∧ ready st'.
Proof.
  exists (obs_at (fresh (dom h)) []), (<[fresh (dom h) := ∅]> h).
  assert (∀ st : state K V W (ObservableT K V W), ready st →
            ∃ st', for_each ops run_op st = Ok (tt, st') ∧ ready st') as Hloop.
  { induction ops as [|o ops IH]; intros st Hst; simpl.
    { by exists st. }
    assert (∃ st1, run_op o st = Ok (tt, st1) ∧ ready st1) as (st1 & Hrun & Hst1).
    { destruct st as [h1 o1 w1]. destruct Hst as (l & os & m & Ho & Hl).
      simpl in Ho, Hl. subst o1.
      assert (∀ h' os' w', h' !! l = Some m →
                ready (State h' (obs_at l os') w')) as Hsame.
      { intros h' os' w' Hl'. by exists l, os', m. }
      destruct o as [key val|keys|del|f|key| | | |f|f|f]; simpl.
      - eexists. split; [by apply Observable_Set_run|].
        exists l, os. eexists. split; [done|]. apply lookup_insert_eq.
      - eexists. split; [by apply Observable_Delete_run|].
        exists l, os. eexists. split; [done|]. apply lookup_insert_eq.
      - eexists. split; [by apply Observable_DeleteFunc_run|].
        exists l, os. eexists. split; [done|]. apply lookup_insert_eq.
      - eexists. split; [reflexivity|]. by apply Hsame.
      - eexists. split; [|by apply (Hsame h1 os w1)].
        erewrite bind_ok; [reflexivity|]. by apply Observable_Get_run.
      - eexists. split; [|by apply (Hsame h1 os w1)].
        erewrite bind_ok; [reflexivity|]. by apply on_sync_run, Sync_Size_run.
      - eexists. split; [|by apply (Hsame h1 os w1)].
        erewrite bind_ok; [reflexivity|]. by apply on_sync_run, Sync_Keys_run.
      - eexists. split; [|by apply (Hsame h1 os w1)].
        erewrite bind_ok; [reflexivity|]. by apply on_sync_run, Sync_Values_run.
      - eexists. split; [by apply on_sync_run, Sync_Each_run|]. by apply Hsame.
      - destruct (Sync_Filter_run h1 l m w1 f Hl) as (h' & Hrun & _ & Hfr).
        eexists. split.
        + erewrite bind_ok; [reflexivity|]. apply on_sync_run. exact Hrun.
        + apply Hsame. rewrite Hfr; [done|]. intros ->. by rewrite make_fresh in Hl.
      - eexists. split; [|by apply (Hsame h1 os w1)].
        erewrite bind_ok; [reflexivity|]. by apply on_sync_run, Sync_Find_run. }
    destruct (IH st1 Hst1) as (st' & Hrun' & Hst').
    exists st'. split; [|done]. erewrite bind_ok; [exact Hrun' | exact Hrun]. }
  destruct (Hloop (State (<[fresh (dom h) := ∅]> h) (obs_at (fresh (dom h)) []) w))
    as (st' & Hrun & Hst').
  { exists (fresh (dom h)), [], ∅. split; [done|]. apply lookup_insert_eq. }
  exists st'. by split.
Qed.
End observable_more.

(** ** More runs on concrete inputs *)

Lemma Find_found_or_zero_witness :
  ∃ e, Find (MapRange0 := range_desc string) (Ref 1) above_5 h_xy = Ok (e, h_xy)
    ∧ e = ("x", 10%Z).
Proof.
  destruct (Find_found_or_zero (MapRange0 := range_desc string) h_xy (Ref 1) above_5)
    as (e & Hrun & _ & Huniq).
  exists e. split; [exact Hrun|].
  apply (Huniq "x" 10%Z); [reflexivity | reflexivity |].
  intros k' v' Hk' Ht'. destruct (decide (k' = "x")) as [|Hne]; [assumption|].
  exfalso. unfold contents, h_xy, m_xy in Hk'. rewrite lookup_singleton_eq in Hk'.
  simpl in Hk'. rewrite lookup_insert_ne in Hk' by congruence.
  apply lookup_singleton_Some in Hk' as [_ <-]. discriminate Ht'.
Defined.

Lemma Reduce_order_free_witness :
  (∀ a k1 v1 k2 v2,
     add_value (add_value a k1 v1) k2 v2 = add_value (add_value a k2 v2) k1 v1)
  ∧ Reduce (MapRange0 := range_desc string) (Ref 1) 0%Z add_value h_xy = Ok (13%Z, h_xy).
Proof.
  split; [intros; unfold add_value; lia|].
  etrans; [apply (Reduce_order_free (MapRange0 := range_desc string) h_xy (Ref 1) 0%Z
                    add_value); intros; unfold add_value; lia|].
  vm_compute. reflexivity.
Defined.

Lemma DeleteFunc_exact_witness :
  ∃ h', DeleteFunc (MapRange0 := range_asc string) Nil above_5 h_x = Ok (tt, h')
    ∧ h' = h_x.
Proof.
  destruct (DeleteFunc_exact (MapRange0 := range_asc string) h_x Nil above_5)
    as (h' & Hrun & _ & _ & Hnil).
  exists h'. split; [exact Hrun | exact (Hnil eq_refl)].
Defined.

Lemma Filter_DeleteFunc_partition_witness :
  h_xy !! 1%positive = Some m_xy
  ∧ ∃ r h', (r ← Filter (MapRange0 := range_asc string) (Ref 1) above_5;
             DeleteFunc (MapRange0 := range_asc string) (Ref 1) above_5 ;;
             mret r) h_xy = Ok (Ref r, h')
      ∧ contents h' (Ref r) ∪ contents h' (Ref 1) = m_xy.
Proof.
  split; [reflexivity|].
  destruct (Filter_DeleteFunc_partition (MapRange0 := range_asc string)
              h_xy 1 m_xy above_5 eq_refl) as (r & h' & Hrun & _ & _ & _ & _ & Hu).
  exists r, h'. split; assumption.
Defined.

Lemma Copy_later_wins_witness :
  Ref 3 ≠ Ref 1
  ∧ ∃ h', (Copy (MapRange0 := range_asc string) (Ref 1) (Ref 2) ;;
           Copy (MapRange0 := range_asc string) (Ref 1) (Ref 3)) h_3 = Ok (tt, h')
      ∧ contents h' (Ref 1) !! "x" = Some 1%Z
      ∧ contents h' (Ref 1) !! "z" = Some 9%Z.
Proof.
  split; [discriminate|].
  destruct (Copy_later_wins (MapRange0 := range_asc string) h_3 1 (Ref 2) (Ref 3))
    as (h' & Hrun & Hc & _); [discriminate|].
  exists h'. split; [exact Hrun|]. rewrite Hc. split; vm_compute; reflexivity.
Defined.

Lemma Set_Delete_exact_witness :
  ∃ h', GoSet.Delete (Ref 1) ["x"; "z"] h_set = Ok (tt, h')
    ∧ GoSet.Has (Ref 1) "x" h' = Ok (false, h')
    ∧ GoSet.Has (Ref 1) "y" h' = Ok (true, h').
Proof.
  destruct (Set_Delete_exact h_set (Ref 1) ["x"; "z"]) as (h' & Hrun & Hhas & _).
  exists h'. split; [exact Hrun|]. split.
  - etrans; [apply Hhas|]. reflexivity.
  - etrans; [apply Hhas|]. reflexivity.
Defined.

Lemma Sync_Clone_independent_witness :
  h_x !! 1%positive = Some m_x
  ∧ ∃ r h', Sync.Clone (MapRange0 := range_asc string) Self (State h_x (sync_at 1) tt)
            = Ok (Some (sync_at r), State h' (sync_at 1) tt)
      ∧ h' !! r = Some m_x
      ∧ h' !! 1%positive = Some m_x.
Proof.
  split; [reflexivity|].
  destruct (Sync_Clone_independent (MapRange0 := range_asc string) h_x 1 m_x tt eq_refl)
    as (r & h' & Hrun & _ & Hr & Hl & _).
  exists r, h'. repeat split; assumption.
Defined.

Lemma Sync_DeleteFunc_exact_witness :
  h_xy !! 1%positive = Some m_xy
  ∧ ∃ m', Sync.DeleteFunc (MapRange0 := range_asc string) above_5
            (State h_xy (sync_at 1) tt)
          = Ok (tt, State (<[1%positive := m']> h_xy) (sync_at 1) tt)
      ∧ m' !! "y" = Some 3%Z.
Proof.
  split; [reflexivity|].
  destruct (Sync_DeleteFunc_exact (MapRange0 := range_asc string) h_xy 1 m_xy tt above_5
              eq_refl) as (m' & Hrun & Hm').
  exists m'. split; [exact Hrun|]. apply Hm'. split; reflexivity.
Defined.

Lemma Sync_Lock_batch_witness :
  h_x !! 1%positive = Some m_x
  ∧ Sync.Lock (λ set, for_each [("x", 1%Z); ("y", 2%Z); ("x", 3%Z)] (λ '(k, v), set k v))
      (State h_x (sync_at 1) tt)
    = Ok (tt, State (<[1%positive := {["x" := 3%Z; "y" := 2%Z]}]> h_x) (sync_at 1) tt).
Proof.
  split; [reflexivity|].
  etrans; [exact (proj1 (Sync_Lock_batch h_x 1 m_x tt
                           [("x", 1%Z); ("y", 2%Z); ("x", 3%Z)] eq_refl))|].
  vm_compute. reflexivity.
Defined.

Lemma Sync_Lock_not_reentrant_witness :
  h_x !! 1%positive = Some m_x
  ∧ Sync.Lock (λ _, Sync.Set_ "x" 1%Z) (State h_x (sync_at 1) tt) = Fault Deadlock
  ∧ Sync.Lock (λ set, v ← Sync.Get "x"; set "x" (v + 1)%Z) (State h_x (sync_at 1) tt)
    = Ok (tt, State (<[1%positive := {["x" := 11%Z]}]> h_x) (sync_at 1) tt).
Proof.
  split; [reflexivity|].
  destruct (Sync_Lock_not_reentrant (MapRange0 := range_asc string) h_x 1 m_x tt "x" 1%Z []
              (λ v, (v + 1)%Z) (λ _ w, w) eq_refl) as (Hset & _ & _ & Hrmw & _).
  split; [exact Hset|]. etrans; [exact Hrmw|]. vm_compute. reflexivity.
Defined.

Lemma Sync_Set_Get_Delete_witness :
  h_x !! 1%positive = Some m_x
  ∧ (Sync.Set_ "y" 1%Z ;; Sync.Size) (State h_x (sync_at 1) tt)
    = Ok (2%Z, State (<[1%positive := <["y" := 1%Z]> m_x]> h_x) (sync_at 1) tt).
Proof.
  split; [reflexivity|].
  destruct (Sync_Set_Get_Delete h_x 1 m_x tt "y" 1%Z "y" eq_refl) as (_ & Hsize & _).
  exact Hsize.
Defined.

Lemma Observable_Set_chain_witness :
  h_x !! 1%positive = Some m_x
  ∧ ∃ st', for_each [20%Z; 30%Z] (λ v, Observable.Set_ "x" v)
             (State h_x (obs_at 1 [recorder]) []) = Ok (tt, st')
      ∧ world st' = [("x", 20%Z, 10%Z); ("x", 30%Z, 20%Z)].
Proof.
  split; [reflexivity|].
  destruct (Observable_Set_chain h_x 1 m_x [recorder] [] "x" [20%Z; 30%Z] eq_refl)
    as (st' & Hrun & Hw & _).
  exists st'. split; [exact Hrun | exact Hw].
Defined.

Lemma Observable_Lock_batch_witness :
  h_x !! 1%positive = Some m_x
  ∧ Observable.Lock (λ set, for_each [("x", 1%Z); ("y", 2%Z); ("x", 3%Z)]
                              (λ '(k, v), set k v))
      (State h_x (obs_at 1 [recorder]) [])
    = Ok (tt, State (<[1%positive := {["x" := 3%Z; "y" := 2%Z]}]> h_x)
                    (obs_at 1 [recorder])
                    [("x", 1%Z, 10%Z); ("y", 2%Z, 0%Z); ("x", 3%Z, 1%Z)]).
Proof.
  split; [reflexivity|].
  etrans; [exact (proj1 (Observable_Lock_batch h_x 1 m_x [recorder] []
                           [("x", 1%Z); ("y", 2%Z); ("x", 3%Z)] eq_refl))|].
  vm_compute. reflexivity.
Defined.

Lemma Observable_Lock_not_reentrant_witness :
  h_x !! 1%positive = Some m_x
  ∧ Observable.Lock (λ _, Observable.Set_ "x" 1%Z) (State h_x (obs_at 1 [recorder]) [])
    = Fault Deadlock.
Proof.
  split; [reflexivity|].
  exact (proj1 (Observable_Lock_not_reentrant (MapRange0 := range_asc string)
                  h_x 1 m_x [recorder] [] "x" 1%Z [] (λ _ w, w) eq_refl)).
Defined.

Lemma Observable_Set_then_Delete_witness :
  h_x !! 1%positive = Some m_x
  ∧ (Observable.Set_ "x" 20%Z ;; Observable.Delete ["x"])
      (State h_x (obs_at 1 [recorder]) [])
    = Ok (tt, State (<[1%positive := delete "x" m_x]> h_x) (obs_at 1 [recorder])
                    [("x", 20%Z, 10%Z); ("x", 0%Z, 20%Z)]).
Proof.
  split; [reflexivity|].
  exact (Observable_Set_then_Delete h_x 1 m_x [recorder] [] "x" 20%Z eq_refl).
Defined.

Lemma Observable_Set_call_log_witness :
  h_x !! 1%positive = Some m_x
  ∧ Observable.Set_ "x" 20%Z
      (State h_x (obs_at 1 (imap logging [recorder; recorder])) ([], []))
    = Ok (tt, State (<[1%positive := <["x" := 20%Z]> m_x]> h_x)
                    (obs_at 1 (imap logging [recorder; recorder]))
                    ([("x", 20%Z, 10%Z); ("x", 20%Z, 10%Z)],
                     [(0, "x", 20%Z, 10%Z); (1, "x", 20%Z, 10%Z)])).
Proof.
  split; [reflexivity|].
  exact (Observable_Set_call_log h_x 1 m_x [recorder; recorder] [] [] "x" 20%Z eq_refl).
Defined.

Lemma Each_once_witness :
  (∀ (w : Z) (k1 : string) (v1 : Z) (k2 : string) (v2 : Z),
     add_value (add_value w k1 v1) k2 v2 = add_value (add_value w k2 v2) k1 v1)
  ∧ Each (MapRange0 := range_desc string) (Ref 1) (λ k v w, add_value w k v)
      (State h_xy tt 0%Z)
    = Ok (tt, State h_xy tt 13%Z).
Proof.
  split; [intros; unfold add_value; lia|].
  destruct (Each_once (MapRange0 := range_desc string) (Ref 1) (λ k v w, add_value w k v)
              (State h_xy tt 0%Z)) as (es & _ & _ & _ & Hfree).
  etrans; [apply Hfree; intros; unfold add_value; lia|].
  vm_compute. reflexivity.
Defined.
